(** * Tesla regional sales toolkit: data reshaping and aggregation

    A shallow embedding of [tesla/src/tesla_data.py] and of the grouping
    code of [tesla/src/tesla_timeseries.py], together with the properties
    the specification states about them.

    The programs are thin layers over a dataframe library.  The module
    [Pandas] below fixes the reading of the library calls the sources
    make; the functions of the two source files are then transcribed
    call by call on top of it. *)

From Stdlib Require Import ZArith QArith String Ascii List Bool Lia.
From Stdlib Require Import Sorting.Sorted Sorting.Permutation.
From Stdlib Require Import Decimal DecimalString DecimalZ DecimalPos.
From stdpp Require Import base option list gmap strings.

Local Open Scope Z_scope.
Local Open Scope string_scope.
Local Open Scope list_scope.

(** ** Exceptions and results *)

Inductive exn :=
| KeyError
| ValueError
| TypeError
| UnboundLocalError
| DanglingReference.  (* not a Python exception: see [Heap.load] *)

Inductive result (A : Type) :=
| Ok (a : A)
| Raise (e : exn).
Arguments Ok {A} a.
Arguments Raise {A} e.

Definition rbind {A B} (r : result A) (k : A -> result B) : result B :=
  match r with
  | Ok a => k a
  | Raise e => Raise e
  end.

Declare Scope result_scope.
Delimit Scope result_scope with result.
Notation "'let?' x ':=' r 'in' k" := (rbind r (fun x => k))
  (at level 10, x name, r at level 100, k at level 200) : result_scope.
Local Open Scope result_scope.

Fixpoint rmap {A B} (f : A -> result B) (l : list A) : result (list B) :=
  match l with
  | [] => Ok []
  | x :: l' =>
      let? y := f x in
      let? ys := rmap f l' in
      Ok (y :: ys)
  end.

Definition is_ok {A} (r : result A) : bool :=
  match r with Ok _ => true | Raise _ => false end.

(** ** Cells

    A cell of a table.  Numbers stand for both int64 and float64 cells
    and are kept exact (a rational); the two float64 infinities are
    separate.  [VNull] is the missing value (NaN, None, NaT).  A
    timestamp is a datetime64[ns] cell: nanoseconds since 1970-01-01. *)

Inductive value :=
| VNull
| VNum (q : Q)
| VInf (negative : bool)
| VStr (s : string)
| VDate (t : Z).

#[global] Instance Q_eq_dec : EqDecision Q.
Proof. solve_decision. Defined.

#[global] Instance value_eq_dec : EqDecision value.
Proof. solve_decision. Defined.

#[global] Instance exn_eq_dec : EqDecision exn.
Proof. solve_decision. Defined.

Definition isna (v : value) : bool :=
  match v with VNull => true | _ => false end.

Definition notna (v : value) : bool := negb (isna v).

Definition QZ (z : Z) : Q := inject_Z z.
Definition VInt (z : Z) : value := VNum (QZ z).

(** ** Python strings (ASCII text)

    Strings are byte strings; the methods below are the built-in [str]
    methods on ASCII text.  Bytes above 127 are left as they are by
    [lower] and are never white space. *)

Module Str.

(** [str.isspace] on one ASCII character: TAB, LF, VT, FF, CR, the
    four separators FS, GS, RS, US, and the blank. *)
Definition isspace (c : ascii) : bool :=
  let n := N_of_ascii c in
  ((9 <=? n) && (n <=? 13) || (28 <=? n) && (n <=? 32))%N.

Fixpoint lstrip (s : string) : string :=
  match s with
  | String c s' => if isspace c then lstrip s' else s
  | EmptyString => EmptyString
  end.

Fixpoint rstrip (s : string) : string :=
  match s with
  | String c s' =>
      match rstrip s' with
      | EmptyString => if isspace c then EmptyString else String c EmptyString
      | r => String c r
      end
  | EmptyString => EmptyString
  end.

Definition strip (s : string) : string := rstrip (lstrip s).

Definition lower_char (c : ascii) : ascii :=
  let n := N_of_ascii c in
  if ((65 <=? n) && (n <=? 90))%N then ascii_of_N (n + 32) else c.

Fixpoint map (f : ascii -> ascii) (s : string) : string :=
  match s with
  | String c s' => String (f c) (map f s')
  | EmptyString => EmptyString
  end.

Definition lower (s : string) : string := map lower_char s.

(** [s.replace(a, b)] for one-character [a] and [b]. *)
Definition replace (a b : ascii) (s : string) : string :=
  map (fun c => if Ascii.eqb c a then b else c) s.

(** [s.split(sep)] for a one-character separator. *)
Fixpoint split (sep : ascii) (s : string) : list string :=
  match s with
  | EmptyString => [EmptyString]
  | String c s' =>
      if Ascii.eqb c sep then EmptyString :: split sep s'
      else match split sep s' with
           | f :: fs => String c f :: fs
           | [] => [String c EmptyString]
           end
  end.

Definition isdigit (c : ascii) : bool :=
  let n := N_of_ascii c in ((48 <=? n) && (n <=? 57))%N.

Fixpoint all (p : ascii -> bool) (s : string) : bool :=
  match s with
  | String c s' => p c && all p s'
  | EmptyString => true
  end.

(** [str(n)] for a Python int. *)
Definition of_int (z : Z) : string := NilZero.string_of_int (Z.to_int z).

(** A non-empty run of decimal digits read as a number. *)
Definition to_nat_digits (s : string) : option Z :=
  match s with
  | EmptyString => None
  | _ =>
      match NilEmpty.uint_of_string s with
      | Some d => Some (Z.of_N (N.of_uint d))
      | None => None
      end
  end.

(** Digit groups of an integer literal: single underscores are allowed
    between digits ([1_000]) and dropped. *)
Fixpoint drop_underscores (prev_digit : bool) (s : string) : option string :=
  match s with
  | EmptyString => if prev_digit then Some EmptyString else None
  | String c s' =>
      if isdigit c then
        match drop_underscores true s' with
        | Some r => Some (String c r)
        | None => None
        end
      else if Ascii.eqb c "_" then
        if prev_digit then drop_underscores false s' else None
      else None
  end.

(** [int(s)]: optional surrounding white space, optional sign, decimal
    digits. *)
Definition to_int (s : string) : option Z :=
  let body (t : string) :=
    match drop_underscores false t with
    | Some ds => to_nat_digits ds
    | None => None
    end in
  match strip s with
  | String "-" t => option_map Z.opp (body t)
  | String "+" t => body t
  | t => body t
  end.

End Str.

(** ** The dataframe library

    The reading of the pandas calls the sources make.  A table keeps its
    column labels in order and its rows as dictionaries from column label
    to cell; the row index is the position of the row (every table the
    sources build is re-indexed with [reset_index(drop=True)]). *)

Module Pandas.

Record DataFrame := mkDF {
  columns : list string;
  rows : list (gmap string value)
}.

(** A column by itself (a Series), by position. *)
Abbreviation Series := (list value).

Definition cell (c : string) (r : gmap string value) : value :=
  default VNull (r !! c).

Definition has_column (df : DataFrame) (c : string) : bool :=
  bool_decide (c ∈ columns df).

(** [df[c]] *)
Definition getitem (df : DataFrame) (c : string) : result Series :=
  if has_column df c then Ok (map (cell c) (rows df)) else Raise KeyError.

(** [df[c] = s]: replaces the column, or appends it as the last one. *)
Definition setitem (df : DataFrame) (c : string) (s : Series) : result DataFrame :=
  if negb (length s =? length (rows df))%nat then Raise ValueError
  else Ok (mkDF (if has_column df c then columns df else columns df ++ [c])
                (zip_with (fun r v => <[c:=v]> r) (rows df) s)).

(** [df.drop(columns=c)] *)
Definition drop (df : DataFrame) (c : string) : result DataFrame :=
  if has_column df c
  then Ok (mkDF (filter (fun c' => c' <> c) (columns df))
                (map (delete c) (rows df)))
  else Raise KeyError.

(** [df[mask]] for a boolean mask aligned with the rows. *)
Fixpoint mask_rows {A} (l : list A) (mask : list bool) : list A :=
  match l, mask with
  | x :: l', b :: mask' =>
      if b then x :: mask_rows l' mask' else mask_rows l' mask'
  | _, _ => []
  end.

Definition getitem_mask (df : DataFrame) (mask : list bool) : DataFrame :=
  mkDF (columns df) (mask_rows (rows df) mask).

(** *** Numbers *)

Definition Qsign (q : Q) : Z := Z.sgn (Qnum q).

(** float64 addition; NaN is [VNull]. *)
Definition num_add (a b : value) : result value :=
  match a, b with
  | VNum p, VNum q => Ok (VNum (Qred (p + q)))
  | VInf s, VNum _ | VNum _, VInf s => Ok (VInf s)
  | VInf s, VInf s' => Ok (if Bool.eqb s s' then VInf s else VNull)
  | VNull, (VNull | VNum _ | VInf _) | (VNum _ | VInf _), VNull => Ok VNull
  | _, _ => Raise TypeError
  end.

(** float64 division [a / b]; a zero divisor gives NaN or an infinity
    and raises nothing. *)
Definition num_div (a b : value) : result value :=
  match a, b with
  | VNum p, VNum q =>
      if Qeq_bool q 0 then
        Ok (match Qsign p with
            | Z0 => VNull
            | Zpos _ => VInf false
            | Zneg _ => VInf true
            end)
      else Ok (VNum (Qred (p / q)))
  | VNum _, VInf _ => Ok (VNum 0)
  | VInf s, VNum q => Ok (VInf (if (Qsign q <? 0)%Z then negb s else s))
  | VInf _, VInf _ => Ok VNull
  | VNull, (VNull | VNum _ | VInf _) | (VNum _ | VInf _), VNull => Ok VNull
  | _, _ => Raise TypeError
  end.

Fixpoint sum_from (acc : value) (l : list value) : result value :=
  match l with
  | [] => Ok acc
  | v :: l' => let? acc' := num_add acc v in sum_from acc' l'
  end.

(** [Series.sum()]: missing cells are skipped, the empty sum is 0. *)
Definition sum (s : Series) : result value :=
  sum_from (VNum 0) (filter (fun v => notna v = true) s).


(** *** Ordering of cells *)

Definition kind (v : value) : Z :=
  match v with
  | VNum _ | VInf _ => 0
  | VStr _ => 1
  | VDate _ => 2
  | VNull => 3
  end.

Definition num_leb (a b : value) : bool :=
  match a, b with
  | VInf true, _ => true
  | _, VInf false => true
  | VNum p, VNum q => Qle_bool p q
  | _, _ => false
  end.

(** Total preorder on cells: missing values last; within one kind the
    order of the kind. *)
Definition value_leb (a b : value) : bool :=
  if (kind a <? kind b)%Z then true
  else if (kind b <? kind a)%Z then false
  else match a, b with
       | VStr s, VStr t => String.leb s t
       | VDate s, VDate t => (s <=? t)%Z
       | VNull, VNull => true
       | _, _ => num_leb a b
       end.

Definition value_ltb (a b : value) : bool := negb (value_leb b a).

Definition value_eqb (a b : value) : bool := value_leb a b && value_leb b a.

(** A column can be ordered when its present cells are of one kind. *)
Definition comparable (s : Series) : bool :=
  match filter (fun v => notna v = true) s with
  | [] => true
  | v :: l => forallb (fun w => (kind w =? kind v)%Z) l
  end.

(** *** Sorting *)

Section Sorting.
Context {A : Type} (leb : A -> A -> bool).

Fixpoint insert_sorted (x : A) (l : list A) : list A :=
  match l with
  | [] => [x]
  | y :: l' => if leb x y then x :: l else y :: insert_sorted x l'
  end.

(** Stable: of two equal rows the earlier one stays first. *)
Fixpoint stable_sort (l : list A) : list A :=
  match l with
  | [] => []
  | x :: l' => insert_sorted x (stable_sort l')
  end.
End Sorting.

(** The relation a Boolean comparison decides. *)
Definition le_of {A} (leb : A -> A -> bool) (x y : A) : Prop := leb x y = true.

(** Rows compared on the key columns in turn. *)
Fixpoint rows_leb (by_ : list string) (r1 r2 : gmap string value) : bool :=
  match by_ with
  | [] => true
  | k :: ks =>
      if value_ltb (cell k r1) (cell k r2) then true
      else if value_ltb (cell k r2) (cell k r1) then false
      else rows_leb ks r1 r2
  end.

(** [df.sort_values(by)]: ascending, missing keys last, equal keys in
    their order of appearance. *)
Definition sort_values (df : DataFrame) (by_ : list string) : result DataFrame :=
  let? keys := rmap (getitem df) by_ in
  if forallb comparable keys
  then Ok (mkDF (columns df) (stable_sort (rows_leb by_) (rows df)))
  else Raise TypeError.

(** [Series.unique()]: first occurrences, in order of appearance. *)
Fixpoint unique (s : Series) : Series :=
  match s with
  | [] => []
  | v :: s' => v :: filter (fun w => value_eqb v w = false) (unique s')
  end.

Definition dropna (s : Series) : Series :=
  filter (fun v => notna v = true) s.

(** *** Timestamps

    A timestamp counts nanoseconds since 1970-01-01 in a signed 64-bit
    integer; the least 64-bit integer is NaT. *)

Definition is_leap (y : Z) : bool :=
  ((y mod 4 =? 0) && negb (y mod 100 =? 0) || (y mod 400 =? 0))%Z.

Definition days_in_month (y m : Z) : Z :=
  if (m =? 2)%Z then (if is_leap y then 29 else 28)
  else if ((m =? 4) || (m =? 6) || (m =? 9) || (m =? 11))%Z then 30
  else 31.

(** Days from 1970-01-01 to the civil date [y]-[m]-[d] (proleptic
    Gregorian calendar). *)
Definition days_from_civil (y m d : Z) : Z :=
  let y' := if (m <=? 2)%Z then y - 1 else y in
  let era := y' / 400 in
  let yoe := y' - era * 400 in
  let mp := (m + 9) mod 12 in
  let doy := (153 * mp + 2) / 5 + d - 1 in
  let doe := yoe * 365 + yoe / 4 - yoe / 100 + doy in
  era * 146097 + doe - 719468.

Definition ns_per_day : Z := 86400 * 1000000000.

(** [Timestamp(year=y, month=m, day=d)] as nanoseconds. *)
Definition Timestamp (y m d : Z) : Z := days_from_civil y m d * ns_per_day.

Definition int64_min : Z := - 2 ^ 63.
Definition int64_max : Z := 2 ^ 63 - 1.

(** [Timestamp.min <= t <= Timestamp.max] *)
Definition in_bounds (t : Z) : bool :=
  ((int64_min <? t) && (t <=? int64_max))%Z.

(** A date written [YYYY-M-D] (the format [%Y-%m-%d]: a four-digit
    year, month and day of one or two digits), read as the timestamp
    of its midnight.  Texts in other notations are not read. *)
Definition parse_datetime (s : string) : option Z :=
  match Str.split "-" s with
  | [ys; ms; ds] =>
      match Str.to_nat_digits ys, Str.to_nat_digits ms, Str.to_nat_digits ds with
      | Some y, Some m, Some d =>
          if ((String.length ys =? 4) && (String.length ms <=? 2)
              && (String.length ds <=? 2))%nat
             && ((1 <=? m) && (m <=? 12) && (1 <=? d)
                 && (d <=? days_in_month y m))%Z
             && in_bounds (Timestamp y m d)
          then Some (Timestamp y m d)
          else None
      | _, _, _ => None
      end
  | _ => None
  end.

(** Truncation toward zero. *)
Definition Qtrunc (q : Q) : Z := Z.quot (Qnum q) (Zpos (Qden q)).

(** [pd.to_datetime] on one cell: timestamps and missing cells stay,
    text is parsed, a number is an offset in nanoseconds. *)
Definition to_datetime_scalar (v : value) : result value :=
  match v with
  | VNull => Ok VNull
  | VDate t => Ok (VDate t)
  | VStr s =>
      match parse_datetime s with
      | Some t => Ok (VDate t)
      | None => Raise ValueError
      end
  | VNum q =>
      let n := Qtrunc q in
      if (n =? int64_min)%Z then Ok VNull
      else if in_bounds n then Ok (VDate n)
      else Raise ValueError
  | VInf _ => Raise ValueError
  end.

Definition to_datetime (s : Series) : result Series :=
  rmap to_datetime_scalar s.

(** *** Casts *)

(** One cell cast to int64: numbers are truncated toward zero (a value
    beyond the 64-bit range comes out as the least 64-bit integer),
    text goes through [int()], a timestamp gives its nanoseconds;
    missing and infinite cells cannot be cast. *)
Definition astype_int_scalar (v : value) : result Z :=
  match v with
  | VNum q =>
      let n := Qtrunc q in
      Ok (if ((int64_min <=? n) && (n <=? int64_max))%Z then n else int64_min)
  | VStr s =>
      match Str.to_int s with
      | Some n =>
          if ((int64_min <=? n) && (n <=? int64_max))%Z then Ok n
          else Raise ValueError
      | None => Raise ValueError
      end
  | VDate t => Ok t
  | VNull | VInf _ => Raise ValueError
  end.

(** [s.astype(int)]: an int64 column. *)
Definition astype_int (s : Series) : result (list Z) :=
  rmap astype_int_scalar s.

(** [s.astype(str)] on an int64 column. *)
Definition astype_str (s : list Z) : list string := map Str.of_int s.

(** [s + t] on a text column and one text. *)
Definition str_add_scalar (s : list string) (t : string) : list string :=
  map (fun x => String.append x t) s.

(** [s + t] on two text columns of one length. *)
Definition str_add (s t : list string) : list string :=
  zip_with String.append s t.

Definition str_series (s : list string) : Series := map VStr s.

(** *** Grouping *)

(** The group labels of [groupby(key)]: the present labels, each once,
    ascending. *)
Definition group_keys (keys : Series) : Series :=
  stable_sort value_leb (unique (dropna keys)).

(** The cells of column [c] in the rows selected by [p]. *)
Definition cells_where (p : gmap string value -> bool) (c : string)
    (rs : list (gmap string value)) : Series :=
  map (cell c) (filter (fun r => p r = true) rs).


(** The one-column form, a Series indexed by the group labels. *)
Definition groupby_agg1 (agg : Series -> result value) (df : DataFrame)
    (key : string) (col : string) : result (list (value * value)) :=
  let? keys := getitem df key in
  let? _ := getitem df col in
  rmap (fun k =>
          let? v := agg (cells_where (fun r => value_eqb (cell key r) k) col (rows df)) in
          Ok (k, v))
       (group_keys keys).

Definition fillna (x : value) (v : value) : value :=
  if isna v then x else v.

(** A table with one row per label of [index] and one column per label
    of [col_labels]. *)
Record Frame := mkFrame {
  col_labels : list value;
  index : list value;
  body : list (list value)
}.

(** [df.groupby([key1, key2])[col].sum().unstack(key2).fillna(x)]:
    rows where either key is missing are left out; a pair that never
    occurs is a missing cell before the fill. *)
Definition groupby2_sum_unstack_fillna (df : DataFrame) (key1 key2 col : string)
    (x : value) : result Frame :=
  let? _ := getitem df key1 in
  let? _ := getitem df key2 in
  let? _ := getitem df col in
  let kept := filter (fun r => notna (cell key1 r) && notna (cell key2 r) = true)
                     (rows df) in
  let ks1 := group_keys (map (cell key1) kept) in
  let ks2 := group_keys (map (cell key2) kept) in
  let? b :=
    rmap (fun k1 =>
      rmap (fun k2 =>
        let p r := value_eqb (cell key1 r) k1 && value_eqb (cell key2 r) k2 in
        match filter (fun r => p r = true) kept with
        | [] => Ok (fillna x VNull)
        | g => let? v := sum (map (cell col) g) in Ok (fillna x v)
        end) ks2) ks1 in
  Ok (mkFrame ks2 ks1 b).

(** [frame.sum(axis=1)] *)
Definition sum_axis1 (f : Frame) : result Series := rmap sum (body f).

(** [frame.div(s, axis=0)]: every cell of a row divided by the entry of
    [s] for that row. *)
Definition div_axis0 (f : Frame) (s : Series) : result Frame :=
  if negb (length s =? length (body f))%nat then Raise ValueError
  else
    let? b := rmap (fun rt => rmap (fun v => num_div v (snd rt)) (fst rt))
                   (zip (body f) s) in
    Ok (mkFrame (col_labels f) (index f) b).

End Pandas.
Import Pandas.

(** ** Objects and references

    A Python variable holds a reference to a table object; assignments
    to a column change the object every holder of the reference sees.
    The heap keeps the table objects; a method that returns a new table
    allocates. *)

Module Heap.

Definition loc := nat.
Abbreviation heap := (list DataFrame).

(** A computation reads and changes the heap and returns a value or
    raises; what was changed before a raise stays changed. *)
Definition M (A : Type) : Type := heap -> result A * heap.

Definition ret {A} (a : A) : M A := fun h => (Ok a, h).

Definition bind {A B} (m : M A) (k : A -> M B) : M B :=
  fun h =>
    match m h with
    | (Ok a, h') => k a h'
    | (Raise e, h') => (Raise e, h')
    end.

Definition lift {A} (r : result A) : M A := fun h => (r, h).

(** Reading an address the heap does not hold raises
    [DanglingReference]; no program below does so when started on an
    address of the heap. *)
Definition load (l : loc) : M DataFrame :=
  fun h =>
    match h !! l with
    | Some df => (Ok df, h)
    | None => (Raise DanglingReference, h)
    end.

Definition store (l : loc) (df : DataFrame) : M unit :=
  fun h => (Ok tt, <[l:=df]> h).

Definition alloc (df : DataFrame) : M loc :=
  fun h => (Ok (length h), h ++ [df]).

End Heap.
Import Heap.

Declare Scope heap_scope.
Delimit Scope heap_scope with heap.
Notation "'let!' x ':=' m 'in' k" := (Heap.bind m (fun x => k))
  (at level 10, x name, m at level 100, k at level 200) : heap_scope.
Notation "m ';;' k" := (Heap.bind m (fun _ => k))
  (at level 100, k at level 200, right associativity) : heap_scope.
Local Open Scope heap_scope.

(** The methods of a table object, on references. *)

Definition df_columns (df : loc) : M (list string) :=
  let! d := load df in ret (columns d).

Definition df_copy (df : loc) : M loc :=
  let! d := load df in alloc d.

Definition df_getitem (df : loc) (c : string) : M Series :=
  let! d := load df in lift (getitem d c).

(** [df[c] = s] changes the object [df] refers to. *)
Definition df_setitem (df : loc) (c : string) (s : Series) : M unit :=
  let! d := load df in
  let! d' := lift (setitem d c s) in
  store df d'.

(** [df.sort_values(by)] returns a new table. *)
Definition df_sort_values (df : loc) (by_ : list string) : M loc :=
  let! d := load df in
  let! d' := lift (sort_values d by_) in
  alloc d'.

(** [df.reset_index(drop=True)] returns a new table; rows are held by
    position, so its content is that of [df]. *)
Definition df_reset_index (df : loc) : M loc :=
  let! d := load df in alloc d.

(** A call of [f] by a caller who holds one table: the value returned
    (or the exception) and the caller's table after the call. *)
Definition call {A} (f : loc -> M A) (df : DataFrame) : result A * option DataFrame :=
  let '(r, h) := f 0%nat [df] in (r, h !! 0%nat).

(** The same for an [f] that returns a table: the table returned is
    read from the heap the call leaves. *)
Definition call_df (f : loc -> M loc) (df : DataFrame) : result DataFrame * option DataFrame :=
  let '(r, h) := (let! l := f 0%nat in load l) [df] in (r, h !! 0%nat).

Definition returned {A B} (x : result A * B) : result A := fst x.
Definition callers_table {A} (x : result A * option DataFrame) : option DataFrame := snd x.

(** ** tesla_data.py *)

(** [sorted(l)] on cells of one kind. *)
Definition sorted (l : list value) : result (list value) :=
  if comparable l then Ok (stable_sort value_leb l) else Raise TypeError.

Definition get_region_names (df : DataFrame) (region_col : string) (sort : bool)
    : result (list value) :=
  let? col := getitem df region_col in
  let regions := unique (dropna col) in
  if sort then sorted regions else Ok regions.

(** [d[k] = v] on a dictionary kept in insertion order. *)
Fixpoint dict_set {V} (k : value) (v : V) (d : list (value * V)) : list (value * V) :=
  match d with
  | [] => [(k, v)]
  | (k', v') :: d' =>
      if value_eqb k k' then (k', v) :: d' else (k', v') :: dict_set k v d'
  end.

(** The body of the loop of [split_by_region] for one region.  The
    in-place steps act on [temp_df], a fresh copy. *)
Definition split_one (df : DataFrame) (region_col : string) (drop_region_col : bool)
    (region : value) : result DataFrame :=
  let? col := getitem df region_col in
  let temp_df := getitem_mask df (map (fun v => value_eqb v region) col) in
  let? temp_df := sort_values temp_df ["Year"; "Month"] in
  if drop_region_col then drop temp_df region_col else Ok temp_df.

Fixpoint split_loop (df : DataFrame) (region_col : string) (drop_region_col : bool)
    (region_names : list value) (region_dfs : list (value * DataFrame))
    : result (list (value * DataFrame)) :=
  match region_names with
  | [] => Ok region_dfs
  | region :: rest =>
      let? temp_df := split_one df region_col drop_region_col region in
      split_loop df region_col drop_region_col rest (dict_set region temp_df region_dfs)
  end.

Definition split_by_region (df : DataFrame) (region_col : string) (drop_region_col : bool)
    : result (list (value * DataFrame)) :=
  let? region_names := get_region_names df region_col true in
  split_loop df region_col drop_region_col region_names [].

Definition add_date_column (df : loc) (year_col month_col date_col : string) : M loc :=
  let! df := df_copy df in
  let! years := df_getitem df year_col in
  let! years := lift (astype_int years) in
  let! months := df_getitem df month_col in
  let! months := lift (astype_int months) in
  let text := str_add_scalar
                (str_add (str_add_scalar (astype_str years) "-") (astype_str months))
                "-01" in
  let! dates := lift (to_datetime (str_series text)) in
  df_setitem df date_col dates;;
  ret df.

(** What [save_region_dfs] does to the file system. *)
Inductive event :=
| Mkdir (dir : string)
| ToCsv (dir : string) (name : string) (content : DataFrame) (index : bool).

(** The local variables the loop of [save_region_dfs] binds; [None] is a
    name not bound yet. *)
Record locals := mkLocals {
  region : option string;
  rdf : option DataFrame;
  safe_region : option string
}.

Definition sanitize (region : string) : string :=
  Str.replace "/" "_" (Str.replace " " "_" (Str.lower (Str.strip region))).

Definition save_loop (region_dfs : list (string * DataFrame)) (st : locals) : locals :=
  fold_left (fun _ item =>
               mkLocals (Some (fst item)) (Some (snd item))
                        (Some (sanitize (fst item))))
            region_dfs st.

(** The file goes to [out_dir / name]; the two parts are kept apart.
    The two statements after the loop read the variables the loop left. *)
Definition save_region_dfs (region_dfs : list (string * DataFrame)) (out_dir : string)
    (prefix : string) (index : bool) : list event * result unit :=
  let st := save_loop region_dfs (mkLocals None None None) in
  match safe_region st with
  | None => ([Mkdir out_dir], Raise UnboundLocalError)
  | Some s =>
      let out_path := String.append prefix (String.append s ".csv") in
      match rdf st with
      | None => ([Mkdir out_dir], Raise UnboundLocalError)
      | Some t => ([Mkdir out_dir; ToCsv out_dir out_path t index], Ok tt)
      end
  end.

(** ** tesla_timeseries.py: the tables behind the charts *)

Definition _prepare_ts_df (df : loc) (date_col : string) : M loc :=
  let! cols := df_columns df in
  let! df := (if bool_decide (date_col ∈ cols) then ret df
              else add_date_column df "Year" "Month" date_col) in
  let! col := df_getitem df date_col in
  let! dates := lift (to_datetime col) in
  df_setitem df date_col dates;;
  let! df := df_sort_values df [date_col] in
  df_reset_index df.

Definition plot_monthly_deliveries (df : loc) (date_col : string)
    : M (list (value * value)) :=
  let! df := _prepare_ts_df df date_col in
  let! d := load df in
  lift (groupby_agg1 Pandas.sum d date_col "Estimated_Deliveries").



Definition plot_model_share_ts (df : loc) (date_col : string) : M Frame :=
  let! df := _prepare_ts_df df date_col in
  let! d := load df in
  let! pivot := lift (groupby2_sum_unstack_fillna d date_col "Model"
                        "Estimated_Deliveries" (VNum 0)) in
  let! totals := lift (sum_axis1 pivot) in
  lift (div_axis0 pivot totals).



(** ** Tables used as examples *)

Definition row (l : list (string * value)) : gmap string value := list_to_map l.

Definition sales_columns : list string :=
  ["Year"; "Month"; "Region"; "Model"; "Estimated_Deliveries"; "Production_Units"].

Definition sales_row (y m : Z) (r mo : string) (d p : Z) : gmap string value :=
  row [("Year", VInt y); ("Month", VInt m); ("Region", VStr r); ("Model", VStr mo);
       ("Estimated_Deliveries", VInt d); ("Production_Units", VInt p)].

(** The three rows of the monthly-totals scenario. *)
Definition scenario_table : DataFrame :=
  mkDF sales_columns
       [sales_row 2023 1 "US" "X" 100 120;
        sales_row 2023 1 "EU" "X" 50 120;
        sales_row 2023 2 "US" "X" 80 90].

(** A table that already has its [Date] column, as text. *)
Definition dated_table : DataFrame :=
  mkDF ["Date"; "Estimated_Deliveries"]
       [row [("Date", VStr "2023-01-01"); ("Estimated_Deliveries", VInt 100)]].

(** ** The tables the two date functions return

    [add_date_column] and [_prepare_ts_df] read one table and return a
    new one; the functions below give the content of the table returned
    from the content of the table passed in.  [add_date_column_run] and
    [prepare_ts_run] relate them to the programs above. *)

Definition add_date_column_table (d : DataFrame) (year_col month_col date_col : string)
    : result DataFrame :=
  let? years := getitem d year_col in
  let? years := astype_int years in
  let? months := getitem d month_col in
  let? months := astype_int months in
  let text := str_add_scalar
                (str_add (str_add_scalar (astype_str years) "-") (astype_str months))
                "-01" in
  let? dates := to_datetime (str_series text) in
  setitem d date_col dates.

Definition prepare_ts_table (d : DataFrame) (date_col : string) : result DataFrame :=
  let? d := (if has_column d date_col then Ok d
             else add_date_column_table d "Year" "Month" date_col) in
  let? col := getitem d date_col in
  let? dates := to_datetime col in
  let? d := setitem d date_col dates in
  sort_values d [date_col].

(** A cell of a date column: a timestamp or NaT. *)
Definition datelike (v : value) : Prop :=
  match v with
  | VNull | VDate _ => True
  | _ => False
  end.

(** The dates of the rows of a table as the analyses read them: the
    date column after [pd.to_datetime], made from year and month first
    when the table has none.  In the order of the rows of the table. *)
Definition source_dates (T : DataFrame) (date_col : string) : result Series :=
  let? d := (if has_column T date_col then Ok T
             else add_date_column_table T "Year" "Month" date_col) in
  let? col := getitem d date_col in
  to_datetime col.


(** A full sales table of two months, with every column the analyses
    read. *)
Definition full_row (y m : Z) (r mo : string) (d p price kwh km st : Z)
    : gmap string value :=
  row [("Year", VInt y); ("Month", VInt m); ("Region", VStr r); ("Model", VStr mo);
       ("Estimated_Deliveries", VInt d); ("Production_Units", VInt p);
       ("Avg_Price_USD", VInt price); ("Battery_Capacity_kWh", VInt kwh);
       ("Range_km", VInt km); ("Charging_Stations", VInt st)].

Definition full_table : DataFrame :=
  mkDF ["Year"; "Month"; "Region"; "Model"; "Estimated_Deliveries"; "Production_Units";
        "Avg_Price_USD"; "Battery_Capacity_kWh"; "Range_km"; "Charging_Stations"]
       [full_row 2023 2 "US" "X" 80 90 50000 75 500 12;
        full_row 2023 1 "US" "X" 100 120 52000 75 500 10;
        full_row 2023 1 "EU" "Y" 50 120 48000 60 420 7].

(** The row counts of the tables of a partition, added up. *)
Definition total_rows (parts : list (value * DataFrame)) : nat :=
  sum_list_with (fun p => length (rows (snd p))) parts.

(** The rows of [df] whose cell in column [c] equals [k]. *)
Definition rows_of_region (df : DataFrame) (c : string) (k : value)
    : list (gmap string value) :=
  filter (fun r => value_eqb (cell c r) k = true) (rows df).

(** Two sales rows, the second without a region. *)
Definition table_with_missing_region : DataFrame :=
  mkDF sales_columns
       [sales_row 2023 1 "US" "X" 100 120;
        <["Region" := VNull]> (sales_row 2023 2 "EU" "X" 80 90)].

(** The table of per-date, per-model delivery totals that the
    model-share analysis divides by its row sums. *)
Definition model_share_pivot (T : DataFrame) (date_col : string) : result Frame :=
  let? d := prepare_ts_table T date_col in
  groupby2_sum_unstack_fillna d date_col "Model" "Estimated_Deliveries" (VNum 0).



(** The finite numbers of a row. *)
Fixpoint nums (l : list value) : list Q :=
  match l with
  | [] => []
  | VNum q :: l' => q :: nums l'
  | _ :: l' => nums l'
  end.




(** The same month with 30 and 70 delivered. *)
Definition thirty_seventy_table : DataFrame :=
  mkDF ["Year"; "Month"; "Model"; "Estimated_Deliveries"]
       [row [("Year", VInt 2023); ("Month", VInt 1); ("Model", VStr "A");
             ("Estimated_Deliveries", VInt 30)];
        row [("Year", VInt 2023); ("Month", VInt 1); ("Model", VStr "B");
             ("Estimated_Deliveries", VInt 70)]].







(** What [sanitize] does to one character: lower case, then blank and
    slash to underscore. *)
Definition sanitize_char (c : ascii) : ascii :=
  let c1 := Str.lower_char c in
  let c2 := if Ascii.eqb c1 " " then "_"%char else c1 in
  if Ascii.eqb c2 "/" then "_"%char else c2.

Definition is_upper (c : ascii) : bool :=
  let n := N_of_ascii c in ((65 <=? n) && (n <=? 90))%N.

(** A character a sanitized name may hold: no blank, no slash, no
    upper-case letter. *)
Definition file_name_char (c : ascii) : bool :=
  negb (Ascii.eqb c " ") && negb (Ascii.eqb c "/") && negb (is_upper c).

Definition starts_clean (s : string) : bool :=
  match s with
  | String c _ => negb (Str.isspace c)
  | EmptyString => true
  end.

Fixpoint ends_clean (s : string) : bool :=
  match s with
  | EmptyString => true
  | String c EmptyString => negb (Str.isspace c)
  | String _ s' => ends_clean s'
  end.

(** A cell of a text column: a string or nothing. *)
Definition text_or_null (v : value) : Prop :=
  match v with
  | VStr _ | VNull => True
  | _ => False
  end.

(** The scenario rows in another order. *)
Definition scenario_table_reordered : DataFrame :=
  mkDF sales_columns
       [sales_row 2023 2 "US" "X" 80 90;
        sales_row 2023 1 "EU" "X" 50 120;
        sales_row 2023 1 "US" "X" 100 120].

(** Three rows with their date as text, one of them without a date. *)
Definition text_dates_table : DataFrame :=
  mkDF ["Date"; "Estimated_Deliveries"]
       [row [("Date", VStr "2023-02-01"); ("Estimated_Deliveries", VInt 80)];
        row [("Date", VNull); ("Estimated_Deliveries", VInt 5)];
        row [("Date", VStr "2023-01-01"); ("Estimated_Deliveries", VInt 100)]].

(** ** More of the dataframe library *)

(** [Series.value_counts()]: every present value with the number of
    cells that hold it, the most frequent first.  The library leaves
    the order among values with equal counts open; here they stay in
    their order of first appearance, and no property below depends on
    that choice. *)
Definition value_counts (s : Series) : list (value * nat) :=
  stable_sort (fun a b => (snd b <=? snd a)%nat)
    (map (fun v => (v, length (filter (fun w => value_eqb w v = true) s)))
         (unique (dropna s))).

(** [Series.sort_index()] on a series of counts: ascending in the
    labels. *)
Definition sort_index (s : list (value * nat)) : result (list (value * nat)) :=
  if comparable (map fst s)
  then Ok (stable_sort (fun a b => value_leb (fst a) (fst b)) s)
  else Raise TypeError.

(** [df.isna().sum()]: for every column, the number of its missing
    cells. *)
Definition isna_sum (df : DataFrame) : list (string * nat) :=
  map (fun c => (c, length (filter (fun v => isna v = true) (map (cell c) (rows df)))))
      (columns df).

(** ** tesla_data.py: loading *)

(** [pd.read_csv] is given: what it returns for a path, or raises. *)
Definition load_tesla_data (read_csv : string -> result DataFrame)
    (csv_path : string) (sort : bool) : result DataFrame :=
  let? df := read_csv csv_path in
  if sort then sort_values df ["Year"; "Month"; "Region"; "Model"]
  else Ok df.

(** ** basic_eda.py: what is printed and drawn *)

(** A line printed, a series of counts printed, or a horizontal bar
    chart shown with its title, axis label and bars. *)
Inductive output :=
| Print (text : string)
| PrintCounts (counts : list (value * nat))
| BarhChart (title xlabel : string) (bars : list (string * nat)).

Definition newline : string := String "010"%char EmptyString.

(** The line printed for a requested column the table lacks. *)
Definition warn_missing_column (col : string) : output :=
  Print (String.append "[WARN] Column '" (String.append col "' not in DataFrame.")).

(** For each requested column in turn: a warning when the table lacks
    it, else a header, the value counts of the column and a blank
    line. *)
Definition count_categorical (df : DataFrame) (cols : list string) : list output :=
  flat_map
    (fun col =>
       if negb (has_column df col) then [warn_missing_column col]
       else
         [Print (String.append newline
                   (String.append "=== Value Counts: " (String.append col " ===")));
          PrintCounts (value_counts (map (cell col) (rows df)));
          Print EmptyString])
    cols.

(** The columns with at least one missing cell, drawn as bars in
    ascending order of their number of missing cells (bars of equal
    length in column order), or a message when there is none. *)
Definition plot_missing_values (df : DataFrame) : list output :=
  let missing := isna_sum df in
  let missing := filter (fun p => (0 < snd p)%nat) missing in
  match missing with
  | [] => [Print ">> No Missing Values Found."]
  | _ =>
      [BarhChart "Missing Values per Column" "Count"
                 (stable_sort (fun a b => (snd a <=? snd b)%nat) missing)]
  end.

(** The series a chart of [plot_year_month_dist] is drawn from:
    [df[col].value_counts().sort_index()]. *)
Definition distribution_series (df : DataFrame) (col : string)
    : result (list (value * nat)) :=
  let? s := getitem df col in
  sort_index (value_counts s).

(** The number of rows of [df] whose cell in column [c] is present. *)
Definition present_count (df : DataFrame) (c : string) : nat :=
  length (filter (fun r => notna (cell c r) = true) (rows df)).

(** What [count_categorical] prints for a column the table has, given
    the counts. *)
Definition value_counts_block (col : string) (counts : list (value * nat)) : list output :=
  [Print (String.append newline
            (String.append "=== Value Counts: " (String.append col " ===")));
   PrintCounts counts;
   Print EmptyString].

(** Counts as [value_counts] lists them for column [c] of [df]: one
    entry for each distinct present value, holding the number of rows
    with that value, so that the counts add up to the number of rows
    with a present cell. *)
Definition counts_of_column (df : DataFrame) (c : string) (counts : list (value * nat)) : Prop :=
  ForallOrdPairs (fun a b => value_eqb (fst a) (fst b) = false) counts /\
  Forall (fun p => notna (fst p) = true /\
                   (1 <= snd p)%nat /\
                   snd p = length (rows_of_region df c (fst p))) counts /\
  sum_list_with snd counts = present_count df c.

(** The number of rows of [df] whose cell in column [c] is missing. *)
Definition missing_count (df : DataFrame) (c : string) : nat :=
  length (filter (fun r => isna (cell c r) = true) (rows df)).




(** * Properties *)

(** ** The exporter *)




(** C8. On the partitions US and EU with prefix [tesla_] the code
    writes the single file [tesla_eu.csv], holding the EU table; no file
    [tesla_us.csv] is written. *)
Theorem C8_save_us_eu_writes_eu_only :
  forall T1 T2 : DataFrame,
    save_region_dfs [("US", T1); ("EU", T2)] "out" "tesla_" false =
      ([Mkdir "out"; ToCsv "out" "tesla_eu.csv" T2 false], Ok tt).
Proof. reflexivity. Qed.

(** C7. On the three rows of the scenario the monthly totals are 150
    for 2023-01 and 80 for 2023-02. *)
Theorem C7_monthly_totals_scenario :
  returned (call (fun df => plot_monthly_deliveries df "Date") scenario_table) =
    Ok [(VDate (Timestamp 2023 1 1), VNum 150); (VDate (Timestamp 2023 2 1), VNum 80)].
Proof. vm_compute. reflexivity. Qed.

(** C5. [_prepare_ts_df] called on a table that has its [Date] column as
    text replaces that column in the caller's table: the cell that held
    the text ["2023-01-01"] holds a timestamp after the call. *)
Theorem C5_prepare_changes_callers_table :
  exists after r,
    callers_table (call_df (fun df => _prepare_ts_df df "Date") dated_table) = Some after /\
    rows dated_table !! 0%nat = Some (row [("Date", VStr "2023-01-01"); ("Estimated_Deliveries", VInt 100)]) /\
    rows after !! 0%nat = Some r /\
    r !! "Date" = Some (VDate (Timestamp 2023 1 1)) /\
    after <> dated_table.
Proof.
  eexists. eexists. split; [vm_compute; reflexivity|].
  split; [reflexivity|]. split; [reflexivity|]. split; [vm_compute; reflexivity|].
  intros H. apply (f_equal (fun d => (fun r => r !! "Date") <$> rows d !! 0%nat)) in H.
  vm_compute in H. discriminate.
Qed.

(** ** Sorting *)

Section SortingFacts.
Context {A : Type} (leb : A -> A -> bool).
Hypothesis leb_total : forall x y, leb x y = false -> leb y x = true.

Local Abbreviation le := (le_of leb).

Lemma insert_sorted_perm x l : Permutation (x :: l) (insert_sorted leb x l).
Proof.
  induction l as [|y l IH]; simpl; [reflexivity|].
  destruct (leb x y); [reflexivity|].
  rewrite perm_swap. now apply perm_skip.
Qed.

Lemma stable_sort_perm l : Permutation l (stable_sort leb l).
Proof.
  induction l as [|x l IH]; simpl; [reflexivity|].
  rewrite <- insert_sorted_perm. now apply perm_skip.
Qed.

Lemma stable_sort_length l : length (stable_sort leb l) = length l.
Proof. symmetry. apply Permutation_length, stable_sort_perm. Qed.

Lemma insert_sorted_sorted x l : Sorted le l -> Sorted le (insert_sorted leb x l).
Proof.
  induction 1 as [|y l Hs IH Hhd]; simpl.
  - repeat constructor.
  - destruct (leb x y) eqn:E.
    + constructor; [now constructor|]. now constructor.
    + constructor; [exact IH|].
      destruct l as [|z l]; simpl.
      * constructor. now apply leb_total.
      * destruct (leb x z); constructor.
        -- now apply leb_total.
        -- now inversion Hhd.
Qed.

Lemma stable_sort_sorted l : Sorted le (stable_sort leb l).
Proof.
  induction l; simpl; [constructor|]. now apply insert_sorted_sorted.
Qed.

(** Sorting a sorted list changes nothing. *)
Lemma stable_sort_id l : Sorted le l -> stable_sort leb l = l.
Proof.
  induction 1 as [|x l Hs IH Hhd]; simpl; [reflexivity|].
  rewrite IH. destruct Hhd as [|y l Hxy]; simpl; [reflexivity|].
  unfold le_of in Hxy. now rewrite Hxy.
Qed.

Lemma stable_sort_idem l : stable_sort leb (stable_sort leb l) = stable_sort leb l.
Proof. apply stable_sort_id, stable_sort_sorted. Qed.

End SortingFacts.

(** ** Running the date functions *)

Lemma load_run (h : heap) l d : h !! l = Some d -> load l h = (Ok d, h).
Proof. unfold load. now intros ->. Qed.

Lemma lookup_alloc (h : heap) (d : DataFrame) : (h ++ [d]) !! length h = Some d.
Proof. rewrite lookup_app_r by lia. now rewrite Nat.sub_diag. Qed.

Lemma lookup_alloc_old (h : heap) (d d' : DataFrame) l :
  h !! l = Some d -> (h ++ [d']) !! l = Some d.
Proof. intros H. rewrite lookup_app_l; [done|]. now apply lookup_lt_Some in H. Qed.

(** [add_date_column] works on a copy: it returns a new object holding
    the table with the date column, and every object of the heap it
    was started on is as before. *)
Lemma add_date_column_run (h : heap) l d yc mc dc :
  h !! l = Some d ->
  add_date_column l yc mc dc h =
    match add_date_column_table d yc mc dc with
    | Ok d' => (Ok (length h), h ++ [d'])
    | Raise e => (Raise e, h ++ [d])
    end.
Proof.
  intros Hl. unfold add_date_column, add_date_column_table.
  unfold df_copy, df_getitem, df_setitem, Heap.bind at 1 2.
  rewrite (load_run _ _ _ Hl). unfold alloc.
  unfold Heap.bind at 1 2. rewrite (load_run _ _ _ (lookup_alloc h d)).
  unfold lift at 1.
  destruct (getitem d yc) as [years|e]; simpl; [|reflexivity].
  unfold Heap.bind at 1, lift at 1.
  destruct (astype_int years) as [ys|e]; simpl; [|reflexivity].
  unfold Heap.bind at 1 2. rewrite (load_run _ _ _ (lookup_alloc h d)).
  unfold lift at 1.
  destruct (getitem d mc) as [months|e]; simpl; [|reflexivity].
  unfold Heap.bind at 1, lift at 1.
  destruct (astype_int months) as [ms|e]; simpl; [|reflexivity].
  unfold Heap.bind at 1, lift at 1.
  destruct (to_datetime _) as [dates|e]; simpl; [|reflexivity].
  unfold Heap.bind at 1 2 3. rewrite (load_run _ _ _ (lookup_alloc h d)).
  unfold lift at 1.
  destruct (setitem d dc dates) as [d'|e]; simpl; [|reflexivity].
  unfold ret. f_equal.
  rewrite insert_app_r_alt by lia. now rewrite Nat.sub_diag.
Qed.

(** [_prepare_ts_df] returns a new object holding [prepare_ts_table] of
    the table it was passed, or raises as [prepare_ts_table] does; when
    the date column was absent the object passed in is as before. *)
Lemma prepare_ts_run (h : heap) l d dc :
  h !! l = Some d ->
  exists r h',
    _prepare_ts_df l dc h = (r, h') /\
    match prepare_ts_table d dc with
    | Ok out => exists l', r = Ok l' /\ h' !! l' = Some out
    | Raise e => r = Raise e
    end /\
    (has_column d dc = false -> h' !! l = Some d).
Proof.
  intros Hl. unfold _prepare_ts_df, prepare_ts_table, df_columns.
  unfold Heap.bind at 1 2. rewrite (load_run _ _ _ Hl). unfold ret at 1.
  fold (has_column d dc).
  assert (Hstep : forall (h1 : heap) l1 d1,
    h1 !! l1 = Some d1 ->
    exists r h',
      (let! col := df_getitem l1 dc in
       let! dates := lift (to_datetime col) in
       df_setitem l1 dc dates;;
       let! df := df_sort_values l1 [dc] in
       df_reset_index df) h1 = (r, h') /\
      match (let? col := getitem d1 dc in
             let? dates := to_datetime col in
             let? d := setitem d1 dc dates in
             sort_values d [dc]) with
      | Ok out => exists l', r = Ok l' /\ h' !! l' = Some out
      | Raise e => r = Raise e
      end /\
      (forall l0 d0, l0 <> l1 -> h1 !! l0 = Some d0 -> h' !! l0 = Some d0)).
  { clear. intros h1 l1 d1 Hl1.
    unfold df_getitem, df_setitem, df_sort_values, df_reset_index.
    unfold Heap.bind, lift, store, alloc. rewrite (load_run _ _ _ Hl1).
    destruct (getitem d1 dc) as [col|e]; cbn [rbind]; cbv beta iota; [|eauto 10].
    destruct (to_datetime col) as [dates|e]; cbn [rbind]; cbv beta iota; [|eauto 10].
    rewrite (load_run _ _ _ Hl1).
    destruct (setitem d1 dc dates) as [d2|e]; cbn [rbind]; cbv beta iota; [|eauto 10].
    assert (Hl2 : <[l1:=d2]> h1 !! l1 = Some d2).
    { apply list_lookup_insert_eq. now apply lookup_lt_Some in Hl1. }
    rewrite (load_run _ _ _ Hl2).
    destruct (sort_values d2 [dc]) as [d3|e]; cbn [rbind]; cbv beta iota.
    2:{ eexists _, _. split; [reflexivity|]. split; [reflexivity|].
        intros l0 d0 Hne H0. now rewrite list_lookup_insert_ne. }
    rewrite (load_run _ _ _ (lookup_alloc (<[l1:=d2]> h1) d3)).
    eexists _, _. split; [reflexivity|]. split.
    - eexists. split; [reflexivity|].
      rewrite lookup_app_r by (rewrite length_app; simpl; lia).
      rewrite length_app. simpl.
      now replace (length (<[l1:=d2]> h1) + 1 - (length (<[l1:=d2]> h1) + 1))%nat with 0%nat by lia.
    - intros l0 d0 Hne H0.
      rewrite lookup_app_l.
      2:{ rewrite length_app, length_insert. apply lookup_lt_Some in H0. lia. }
      rewrite lookup_app_l.
      2:{ rewrite length_insert. now apply lookup_lt_Some in H0. }
      now rewrite list_lookup_insert_ne. }
  destruct (has_column d dc) eqn:Hc.
  - unfold Heap.bind at 1, ret at 1.
    destruct (Hstep h l d Hl) as (r & h' & Hrun & Hres & _).
    exists r, h'. simpl. repeat split; [exact Hrun|exact Hres|discriminate].
  - unfold Heap.bind at 1. rewrite (add_date_column_run _ _ _ _ _ _ Hl).
    destruct (add_date_column_table d "Year" "Month" dc) as [d1|e]; simpl.
    + destruct (Hstep (h ++ [d1]) (length h) d1 (lookup_alloc h d1))
        as (r & h' & Hrun & Hres & Hframe).
      exists r, h'. repeat split; [exact Hrun|exact Hres|].
      intros _. apply Hframe.
      * apply lookup_lt_Some in Hl. lia.
      * now apply lookup_alloc_old with (d := d).
    + eexists _, _. repeat split. intros _. now apply lookup_alloc_old with (d := d).
Qed.

(** ** The date guard is idempotent *)

Lemma rmap_length {A B} (f : A -> result B) l l' :
  rmap f l = Ok l' -> length l' = length l.
Proof.
  revert l'. induction l as [|x l IH]; simpl; intros l' H.
  - now inversion H.
  - destruct (f x); simpl in H; [|discriminate].
    destruct (rmap f l); simpl in H; [|discriminate].
    inversion H; subst. simpl. f_equal. now apply IH.
Qed.

Lemma rmap_Forall2 {A B} (f : A -> result B) l l' :
  rmap f l = Ok l' -> Forall2 (fun x y => f x = Ok y) l l'.
Proof.
  revert l'. induction l as [|x l IH]; simpl; intros l' H.
  - inversion H. constructor.
  - destruct (f x) eqn:E; simpl in H; [|discriminate].
    destruct (rmap f l); simpl in H; [|discriminate].
    inversion H; subst. constructor; auto.
Qed.


Lemma to_datetime_scalar_datelike v w :
  to_datetime_scalar v = Ok w -> datelike w.
Proof.
  destruct v as [|q|b|s|t]; simpl; intros H.
  - now inversion H.
  - destruct (_ =? _)%Z; [now inversion H|].
    destruct (in_bounds _); now inversion H.
  - discriminate.
  - destruct (parse_datetime s); now inversion H.
  - now inversion H.
Qed.


Lemma to_datetime_datelike s dates :
  to_datetime s = Ok dates -> Forall datelike dates.
Proof.
  intros H. apply rmap_Forall2 in H.
  induction H; constructor; eauto using to_datetime_scalar_datelike.
Qed.


(** The rows of a table after [df[c] = s]. *)
Lemma setitem_rows d c s d' :
  setitem d c s = Ok d' ->
  has_column d' c = true /\
  Forall2 (fun r v => r !! c = Some v) (rows d') s.
Proof.
  unfold setitem. destruct (length s =? length (rows d))%nat eqn:E; simpl; [|discriminate].
  intros H. inversion H; subst; clear H. simpl. split.
  - unfold has_column. simpl. destruct (bool_decide (c ∈ columns d)) eqn:Hc.
    + exact Hc.
    + apply bool_decide_eq_true. apply elem_of_app. right. now apply list_elem_of_singleton.
  - apply Nat.eqb_eq in E. revert s E.
    induction (rows d) as [|r rs IH]; intros [|v s] E; simpl in *; try discriminate; constructor.
    + apply lookup_insert_eq.
    + apply IH. lia.
Qed.


Lemma rows_leb_total by_ r1 r2 :
  rows_leb by_ r1 r2 = false -> rows_leb by_ r2 r1 = true.
Proof.
  induction by_ as [|k ks IH]; simpl; [discriminate|].
  destruct (value_ltb (cell k r1) (cell k r2)) eqn:E1; [discriminate|].
  destruct (value_ltb (cell k r2) (cell k r1)) eqn:E2; [reflexivity|].
  exact IH.
Qed.

Lemma getitem_has d c :
  has_column d c = true -> getitem d c = Ok (map (cell c) (rows d)).
Proof. unfold getitem. now intros ->. Qed.

Lemma sort_values_one d c :
  sort_values d [c] =
    (let? col := getitem d c in
     if comparable col
     then Ok (mkDF (columns d) (stable_sort (rows_leb [c]) (rows d)))
     else Raise TypeError).
Proof.
  unfold sort_values. cbn [rmap rbind].
  destruct (getitem d c) as [col|e]; cbn [rbind forallb]; [|reflexivity].
  now rewrite andb_true_r.
Qed.


(** What a caller of [_prepare_ts_df] gets back. *)
Lemma prepare_ts_returned T dc :
  returned (call_df (fun df => _prepare_ts_df df dc) T) = prepare_ts_table T dc.
Proof.
  unfold call_df, returned, Heap.bind.
  destruct (prepare_ts_run [T] 0%nat T dc eq_refl) as (r & h' & Hrun & Hres & _).
  rewrite Hrun. destruct (prepare_ts_table T dc) as [out|e].
  - destruct Hres as (l' & -> & Hl'). now rewrite (load_run _ _ _ Hl').
  - now subst r.
Qed.



(** ** What the date functions do to the caller's table *)

(** [add_date_column] leaves the table of its caller as it was. *)
Lemma add_date_column_keeps_callers_table T yc mc dc :
  callers_table (call_df (fun df => add_date_column df yc mc dc) T) = Some T.
Proof.
  unfold call_df, callers_table, Heap.bind.
  rewrite (add_date_column_run [T] 0%nat T yc mc dc eq_refl).
  destruct (add_date_column_table T yc mc dc) as [d'|e]; [|reflexivity].
  now rewrite (load_run _ _ _ (lookup_alloc [T] d')).
Qed.

(** So does [_prepare_ts_df] when the table has no date column yet. *)
Lemma prepare_ts_df_keeps_callers_table_without_date T dc :
  has_column T dc = false ->
  callers_table (call_df (fun df => _prepare_ts_df df dc) T) = Some T.
Proof.
  intros Hc. unfold call_df, callers_table, Heap.bind.
  destruct (prepare_ts_run [T] 0%nat T dc eq_refl) as (r & h' & Hrun & Hres & Hframe).
  rewrite Hrun. specialize (Hframe Hc).
  destruct r as [l|e]; [|exact Hframe].
  unfold load. destruct (h' !! l); exact Hframe.
Qed.

(** ** The order on cells *)

Lemma string_leb_trans s1 s2 s3 :
  String.leb s1 s2 = true -> String.leb s2 s3 = true -> String.leb s1 s3 = true.
Proof.
  intros H1%Is_true_true H2%Is_true_true. apply Is_true_true.
  exact (transitivity (R := String.le) H1 H2).
Qed.

Lemma Qle_bool_trans p q r :
  Qle_bool p q = true -> Qle_bool q r = true -> Qle_bool p r = true.
Proof.
  rewrite !Qle_bool_iff. apply Qle_trans.
Qed.

Lemma Qle_bool_total p q : Qle_bool p q = false -> Qle_bool q p = true.
Proof.
  intros H. apply Qle_bool_iff. apply Qlt_le_weak. apply Qnot_le_lt.
  intros Hle. apply Qle_bool_iff in Hle. congruence.
Qed.

Lemma value_leb_total a b : value_leb a b = false -> value_leb b a = true.
Proof.
  destruct a as [|p|[]|s|t], b as [|q|[]|s'|t']; cbn; try congruence.
  - apply Qle_bool_total.
  - intros H. destruct (String.leb_total s s') as [H'|H']; congruence.
  - intros H. apply Z.leb_gt in H. apply Z.leb_le. lia.
Qed.

Lemma value_leb_refl a : value_leb a a = true.
Proof.
  pose proof (value_leb_total a a) as H. destruct (value_leb a a); [reflexivity|]. now apply H.
Qed.

Lemma value_leb_trans a b c :
  value_leb a b = true -> value_leb b c = true -> value_leb a c = true.
Proof.
  destruct a as [|p|[]|s|t], b as [|q|[]|s'|t'], c as [|r|[]|s''|t''];
    cbn; try congruence.
  - apply Qle_bool_trans.
  - apply string_leb_trans.
  - rewrite !Z.leb_le. lia.
Qed.

Lemma value_eqb_sym a b : value_eqb a b = value_eqb b a.
Proof. unfold value_eqb. apply andb_comm. Qed.

Lemma value_eqb_refl a : value_eqb a a = true.
Proof. unfold value_eqb. now rewrite value_leb_refl. Qed.

Lemma value_eqb_trans a b c :
  value_eqb a b = true -> value_eqb b c = true -> value_eqb a c = true.
Proof.
  unfold value_eqb. rewrite !andb_true_iff. intros [? ?] [? ?].
  split; eauto using value_leb_trans.
Qed.

(** A missing cell equals no present one. *)
Lemma value_eqb_null a : notna a = true -> value_eqb a VNull = false.
Proof. destruct a as [| |[]| |]; cbn; congruence. Qed.

Lemma value_eqb_date s t : value_eqb (VDate s) (VDate t) = (s =? t)%Z.
Proof.
  unfold value_eqb. cbn. destruct (Z.eqb_spec s t) as [->|Hne].
  - now rewrite Z.leb_refl.
  - apply andb_false_iff. rewrite !Z.leb_gt. lia.
Qed.

Lemma value_eqb_str s t : value_eqb (VStr s) (VStr t) = String.eqb s t.
Proof.
  unfold value_eqb. cbn. destruct (String.eqb_spec s t) as [->|Hne].
  - destruct (String.leb_total t t) as [->| ->]; reflexivity.
  - apply andb_false_iff.
    destruct (String.leb s t) eqn:E1; [|now left].
    destruct (String.leb t s) eqn:E2; [|now right].
    exfalso. apply Hne. now apply String.leb_antisym.
Qed.

(** ** Distinct values and group labels *)

Lemma unique_subset l x : x ∈ unique l -> x ∈ l.
Proof.
  revert x. induction l as [|v l IH]; simpl; intros x H; [exact H|].
  apply elem_of_cons in H as [->|H]; [left|right].
  apply list_elem_of_filter in H as [_ H]. now apply IH.
Qed.

Lemma unique_cover l x :
  x ∈ l -> exists y, y ∈ unique l /\ value_eqb y x = true.
Proof.
  induction l as [|v l IH]; simpl; intros H; [now apply elem_of_nil in H|].
  apply elem_of_cons in H as [->|H].
  - exists v. split; [left|apply value_eqb_refl].
  - destruct (IH H) as (y & Hy & Hyx).
    destruct (value_eqb v y) eqn:E.
    + exists v. split; [left|]. eauto using value_eqb_trans.
    + exists y. split; [|exact Hyx]. right. now apply list_elem_of_filter.
Qed.

Lemma ForallOrdPairs_filter {A} (R : A -> A -> Prop) (P : A -> Prop)
    `{!forall x, Decision (P x)} l :
  ForallOrdPairs R l -> ForallOrdPairs R (base.filter P l).
Proof.
  induction 1 as [|a l Ha Hl IH]; [constructor|].
  rewrite filter_cons. destruct (decide (P a)); [|exact IH].
  constructor; [|exact IH].
  apply Forall_forall. intros x Hx%list_elem_of_filter.
  rewrite Forall_forall in Ha. now apply Ha.
Qed.

(** No two entries of [unique l] are equal. *)
Lemma unique_pairwise l :
  ForallOrdPairs (fun a b => value_eqb a b = false) (unique l).
Proof.
  induction l as [|v l IH]; simpl; constructor.
  - apply Forall_forall. now intros x [Hx _]%list_elem_of_filter.
  - now apply ForallOrdPairs_filter.
Qed.

Lemma ForallOrdPairs_perm {A} (R : A -> A -> Prop) l l' :
  (forall a b, R a b -> R b a) ->
  Permutation l l' -> ForallOrdPairs R l -> ForallOrdPairs R l'.
Proof.
  intros Hsym Hp. induction Hp as [|x l l' Hp IH|x y l|l l' l'' _ IH1 _ IH2]; intros H.
  - constructor.
  - inversion H as [|? ? Hx Hl]; subst. constructor; [|now apply IH].
    eapply Permutation_Forall; eassumption.
  - inversion H as [|? ? Hy Hl]; subst. inversion Hl as [|? ? Hx Hl']; subst.
    inversion Hy as [|? ? Hyx Hyl]; subst.
    constructor; [constructor; [now apply Hsym|assumption]|].
    now constructor.
  - auto.
Qed.

(** Sorting distinct values puts them in strictly ascending order. *)
Lemma sort_unique_strict l :
  StronglySorted (le_of value_ltb) (stable_sort value_leb (unique l)).
Proof.
  assert (Hs : StronglySorted (le_of value_leb) (stable_sort value_leb (unique l))).
  { apply Sorted_StronglySorted.
    - intros a b c. apply value_leb_trans.
    - apply stable_sort_sorted, value_leb_total. }
  assert (Hd : ForallOrdPairs (fun a b => value_eqb a b = false)
                 (stable_sort value_leb (unique l))).
  { eapply ForallOrdPairs_perm; [|apply stable_sort_perm|apply unique_pairwise].
    intros a b. now rewrite value_eqb_sym. }
  induction Hs as [|a m Hm IH Ha]; [constructor|].
  inversion Hd as [|? ? Hda Hdm]; subst. constructor; [now apply IH|].
  rewrite Forall_forall in *. intros x Hx. specialize (Ha x Hx). specialize (Hda x Hx).
  unfold le_of, value_ltb, value_eqb in *. rewrite Ha in Hda. simpl in Hda.
  now rewrite Hda.
Qed.

Lemma group_keys_strict keys :
  StronglySorted (le_of value_ltb) (group_keys keys).
Proof. apply sort_unique_strict. Qed.

Lemma group_keys_present keys k : k ∈ group_keys keys -> k ∈ keys /\ notna k = true.
Proof.
  unfold group_keys. rewrite <- (stable_sort_perm value_leb (unique (dropna keys))).
  intros H%unique_subset. unfold dropna in H.
  apply list_elem_of_filter in H. tauto.
Qed.

Lemma group_keys_cover keys k :
  k ∈ keys -> notna k = true ->
  exists k', k' ∈ group_keys keys /\ value_eqb k' k = true.
Proof.
  intros Hk Hn.
  destruct (unique_cover (dropna keys) k) as (y & Hy & Hyk).
  { unfold dropna. now apply list_elem_of_filter. }
  exists y. split; [|exact Hyk].
  unfold group_keys. now rewrite <- (stable_sort_perm value_leb (unique (dropna keys))).
Qed.

(** ** Grouping by date *)


Lemma setitem_column d c s d' :
  setitem d c s = Ok d' -> map (cell c) (rows d') = s.
Proof.
  intros H. apply setitem_rows in H as [_ H].
  induction H as [|r v rs s Hr _ IH]; simpl; [reflexivity|].
  rewrite IH. unfold cell. now rewrite Hr.
Qed.

(** The date column of the prepared table holds the dates of the source
    rows, in another order. *)
Lemma prepared_dates T dc d :
  prepare_ts_table T dc = Ok d ->
  exists dates col,
    source_dates T dc = Ok dates /\ getitem d dc = Ok col /\
    Permutation dates col /\ Forall datelike col.
Proof.
  unfold prepare_ts_table, source_dates.
  destruct (if has_column T dc then Ok T else add_date_column_table T "Year" "Month" dc)
    as [d1|e]; cbn [rbind]; [|discriminate].
  destruct (getitem d1 dc) as [col|e]; cbn [rbind]; [|discriminate].
  destruct (to_datetime col) as [dates|e] eqn:Hdates; cbn [rbind]; [|discriminate].
  destruct (setitem d1 dc dates) as [d2|e] eqn:Hset; cbn [rbind]; [|discriminate].
  rewrite sort_values_one.
  pose proof (setitem_rows _ _ _ _ Hset) as [Hc _].
  rewrite (getitem_has _ _ Hc). cbn [rbind].
  destruct (comparable _); [|discriminate].
  intros H. apply (f_equal (fun r => match r with Ok x => x | Raise _ => d end)) in H.
  subst d. exists dates, (map (cell dc) (stable_sort (rows_leb [dc]) (rows d2))).
  split; [reflexivity|]. split; [now apply getitem_has|].
  assert (Hp : Permutation dates (map (cell dc) (stable_sort (rows_leb [dc]) (rows d2)))).
  { rewrite <- (setitem_column _ _ _ _ Hset) at 1.
    apply Permutation_map, stable_sort_perm. }
  split; [exact Hp|].
  eapply Permutation_Forall; [exact Hp|]. now apply to_datetime_datelike in Hdates.
Qed.




Lemma strict_dates ts :
  StronglySorted (le_of value_ltb) (map VDate ts) -> StronglySorted Z.lt ts.
Proof.
  induction ts as [|t ts IH]; simpl; intros H; [constructor|].
  inversion H as [|? ? Hs Hf]; subst. constructor; [now apply IH|].
  apply Forall_forall. intros x Hx. rewrite Forall_forall in Hf.
  specialize (Hf (VDate x)). unfold le_of, value_ltb in Hf. cbn in Hf.
  assert (Hin : VDate x ∈ map VDate ts) by now apply (list_elem_of_fmap_2 VDate).
  specialize (Hf Hin). apply negb_true_iff, Z.leb_gt in Hf. exact Hf.
Qed.

Lemma timestamps_of l :
  Forall (fun v => datelike v /\ notna v = true) l -> exists ts, l = map VDate ts.
Proof.
  induction 1 as [|v l [Hd Hn] _ [ts ->]]; [now exists []|].
  destruct v; simpl in *; try contradiction; try discriminate.
  now exists (t :: ts).
Qed.






(** ** Splitting by region *)

Lemma mask_rows_filter {A} (f : A -> bool) (rs : list A) :
  mask_rows rs (map f rs) = filter (fun r => f r = true) rs.
Proof.
  induction rs as [|r rs IH]; simpl; [reflexivity|].
  rewrite filter_cons, IH. destruct (f r); simpl; reflexivity.
Qed.

(** The table of one region: the rows of the region, ordered by year
    and month, without the region column. *)
Lemma split_one_rows df c k t :
  split_one df c true k = Ok t ->
  rows t = map (delete c)
             (stable_sort (rows_leb ["Year"; "Month"]) (rows_of_region df c k)).
Proof.
  unfold split_one, getitem, has_column.
  destruct (bool_decide (c ∈ columns df)) eqn:Hc; cbn [rbind]; [|discriminate].
  unfold getitem_mask, sort_values. cbn [columns rows].
  rewrite map_map.
  rewrite (mask_rows_filter (fun r => value_eqb (cell c r) k)).
  destruct (rmap _ _) as [keys|e]; cbn [rbind]; [|discriminate].
  destruct (forallb comparable keys); [|discriminate].
  unfold drop, has_column. cbn [rbind columns rows]. rewrite Hc.
  intros H. apply (f_equal (fun r => match r with Ok x => rows x | Raise _ => [] end)) in H.
  now rewrite <- H.
Qed.

Lemma dict_set_fresh {V} k (v : V) d :
  Forall (fun k' => value_eqb k' k = false) (map fst d) ->
  dict_set k v d = d ++ [(k, v)].
Proof.
  induction d as [|[k' v'] d IH]; simpl; intros H; [reflexivity|].
  inversion H as [|? ? Hk Hd]; subst. simpl in Hk.
  rewrite value_eqb_sym, Hk. now rewrite IH.
Qed.

(** With distinct region names the loop adds one entry per name, in
    order. *)
Lemma split_loop_entries df c dr names acc parts :
  ForallOrdPairs (fun a b => value_eqb a b = false) (map fst acc ++ names) ->
  split_loop df c dr names acc = Ok parts ->
  exists new,
    parts = acc ++ new /\
    Forall2 (fun k p => fst p = k /\ split_one df c dr k = Ok (snd p)) names new.
Proof.
  revert acc. induction names as [|k names IH]; simpl; intros acc Hd H.
  - inversion H; subst. exists []. split; [now rewrite app_nil_r|constructor].
  - destruct (split_one df c dr k) as [t|e] eqn:E; cbn [rbind] in H; [|discriminate].
    assert (Hfresh : Forall (fun k' => value_eqb k' k = false) (map fst acc)).
    { clear -Hd. induction acc as [|[k' v'] acc IH]; simpl in *; [constructor|].
      inversion Hd as [|? ? Hk Hr]; subst. constructor; [|now apply IH].
      rewrite Forall_forall in Hk. apply Hk. apply elem_of_app. right. left. }
    rewrite dict_set_fresh in H by exact Hfresh.
    apply IH in H.
    + destruct H as (new & -> & Hnew). exists ((k, t) :: new).
      split; [now rewrite <- app_assoc|]. constructor; [now split|exact Hnew].
    + rewrite map_app. simpl. now rewrite <- app_assoc.
Qed.

Lemma sorted_ok l names :
  sorted l = Ok names -> names = stable_sort value_leb l.
Proof. unfold sorted. destruct (comparable l); now inversion 1. Qed.

(** What [split_by_region] returns, entry by entry. *)
Lemma split_by_region_entries T c parts :
  split_by_region T c true = Ok parts ->
  exists regions,
    getitem T c = Ok regions /\
    get_region_names T c true = Ok (map fst parts) /\
    map fst parts = group_keys regions /\
    Forall (fun p => split_one T c true (fst p) = Ok (snd p)) parts.
Proof.
  unfold split_by_region.
  destruct (get_region_names T c true) as [names|e] eqn:Hn; cbn [rbind]; [|discriminate].
  intros H. unfold get_region_names in Hn.
  destruct (getitem T c) as [regions|e]; cbn [rbind] in Hn; [|discriminate].
  apply sorted_ok in Hn. fold (group_keys regions) in Hn.
  apply split_loop_entries in H.
  2:{ simpl. subst names. unfold group_keys.
      eapply ForallOrdPairs_perm; [|apply stable_sort_perm|apply unique_pairwise].
      intros a b. now rewrite value_eqb_sym. }
  destruct H as (new & -> & Hnew). simpl.
  assert (Hfst : map fst new = names).
  { clear -Hnew. induction Hnew as [|k p ks ps [Hk _] _ IH]; simpl; [reflexivity|].
    now rewrite Hk, IH. }
  exists regions. rewrite Hfst. repeat split; try assumption; try reflexivity.
  clear -Hnew. induction Hnew as [|k p ks ps [Hk Hp] _ IH]; constructor; [|exact IH].
  now rewrite Hk.
Qed.

(** *** Counting the rows of the regions *)

Lemma filter_ext_elem_of {A} (P Q : A -> Prop)
    `{!forall x, Decision (P x), !forall x, Decision (Q x)} (l : list A) :
  (forall x, x ∈ l -> P x <-> Q x) -> filter P l = filter Q l.
Proof.
  induction l as [|a l IH]; intros Hext; [reflexivity|].
  rewrite !filter_cons.
  assert (Ha : P a <-> Q a) by (apply Hext; left).
  rewrite IH by (intros x Hx; apply Hext; now right).
  destruct (decide (P a)), (decide (Q a)); tauto.
Qed.

Section RegionCount.
Context (c : string).

Local Abbreviation rows_eq k rs :=
  (filter (fun r : gmap string value => value_eqb (cell c r) k = true) rs).
Local Abbreviation rows_ne v rs :=
  (filter (fun r : gmap string value => value_eqb (cell c r) v = false) rs).

Lemma count_rows_ne v k rs :
  length (rows_eq k (rows_ne v rs)) =
    if value_eqb v k then 0%nat else length (rows_eq k rs).
Proof.
  induction rs as [|r rs IH]; simpl.
  - now destruct (value_eqb v k).
  - rewrite !filter_cons.
    destruct (decide (value_eqb (cell c r) v = false)) as [Hv|Hv].
    + rewrite filter_cons.
      destruct (decide (value_eqb (cell c r) k = true)) as [Hk|Hk]; simpl; rewrite IH.
      * destruct (value_eqb v k) eqn:E; [|reflexivity].
        rewrite value_eqb_sym in E.
        rewrite (value_eqb_trans _ _ _ Hk E) in Hv. discriminate.
      * reflexivity.
    + apply not_false_is_true in Hv.
      destruct (decide (value_eqb (cell c r) k = true)) as [Hk|Hk]; simpl; rewrite IH.
      * rewrite value_eqb_sym in Hv. now rewrite (value_eqb_trans _ _ _ Hv Hk).
      * destruct (value_eqb v k) eqn:E; [|reflexivity].
        exfalso. apply Hk. eauto using value_eqb_trans.
Qed.

Lemma sum_rows_ne v (ks : list value) rs :
  sum_list_with (fun k => length (rows_eq k rs))
                (filter (fun w => value_eqb v w = false) ks) =
  sum_list_with (fun k => length (rows_eq k (rows_ne v rs))) ks.
Proof.
  induction ks as [|k ks IH]; simpl; [reflexivity|].
  rewrite filter_cons, count_rows_ne.
  destruct (decide (value_eqb v k = false)) as [E|E].
  - simpl. now rewrite E, IH.
  - apply not_false_is_true in E. now rewrite E, IH.
Qed.

Lemma split_count v l rs :
  (length (rows_eq v rs) +
   length (filter (fun r => existsb (value_eqb (cell c r)) l = true) (rows_ne v rs)))%nat =
  length (filter (fun r => existsb (value_eqb (cell c r)) (v :: l) = true) rs).
Proof.
  induction rs as [|r rs IH]; simpl; [reflexivity|].
  rewrite !filter_cons. simpl existsb in *.
  destruct (value_eqb (cell c r) v) eqn:Hv; simpl.
  - destruct (decide (true = true)); [|congruence].
    destruct (decide (true = false)); [congruence|].
    simpl. now rewrite <- IH.
  - destruct (decide (false = true)); [congruence|].
    destruct (decide (false = false)); [|congruence].
    rewrite filter_cons.
    destruct (decide (existsb (value_eqb (cell c r)) l = true)); simpl; rewrite <- IH; lia.
Qed.

(** The rows that match some value of [l], counted value by value over
    the distinct values of [l]. *)
Lemma count_by_unique l rs :
  sum_list_with (fun k => length (rows_eq k rs)) (unique l) =
  length (filter (fun r => existsb (value_eqb (cell c r)) l = true) rs).
Proof.
  revert rs. induction l as [|v l IH]; intros rs; simpl unique.
  - simpl. induction rs as [|r rs IHrs]; [reflexivity|].
    rewrite filter_cons. simpl. destruct (decide (false = true)); [congruence|exact IHrs].
  - cbn [sum_list_with]. rewrite sum_rows_ne, IH. apply split_count.
Qed.

(** Every row with a present cell in column [c] is in the group of
    exactly one distinct value of the column. *)
Lemma count_by_region rs :
  sum_list_with (fun k => length (rows_eq k rs)) (group_keys (map (cell c) rs)) =
  length (filter (fun r => notna (cell c r) = true) rs).
Proof.
  unfold group_keys.
  rewrite <- (stable_sort_perm value_leb (unique (dropna (map (cell c) rs)))).
  rewrite count_by_unique. f_equal. apply filter_ext_elem_of. intros r Hr.
  rewrite existsb_exists. split.
  - intros (k & Hk & E). apply list_elem_of_In in Hk. unfold dropna in Hk.
    apply list_elem_of_filter in Hk as [Hn _].
    destruct (notna (cell c r)) eqn:Hna; [reflexivity|].
    destruct (cell c r); try discriminate.
    rewrite value_eqb_sym, value_eqb_null in E by exact Hn. discriminate.
  - intros Hn. exists (cell c r). split; [|apply value_eqb_refl].
    apply list_elem_of_In. unfold dropna. apply list_elem_of_filter. split; [exact Hn|].
    now apply (list_elem_of_fmap_2 (cell c)).
Qed.

End RegionCount.

Lemma value_eqb_str_inv k s : value_eqb k (VStr s) = true -> k = VStr s.
Proof.
  destruct k as [| |[]|s'|]; try (cbn; congruence).
  rewrite value_eqb_str. now intros ->%String.eqb_eq.
Qed.

Lemma value_eqb_notna a b : value_eqb a b = true -> notna b = true -> notna a = true.
Proof.
  intros E Hb. destruct a; try reflexivity.
  rewrite value_eqb_sym, value_eqb_null in E by exact Hb. discriminate.
Qed.

(** C9. The keys of the partition are the region names
    [get_region_names] gives: the present values of the Region column,
    each once, in strictly ascending order.  The table of a key holds
    the rows whose Region equals the key, ordered by year and month,
    without the Region column; so every row of every table comes from a
    row whose Region is present, and a row without Region is in none. *)
Theorem C9_partition_keys_are_present_regions :
  forall (T : DataFrame) (parts : list (value * DataFrame)),
    split_by_region T "Region" true = Ok parts ->
    exists regions,
      getitem T "Region" = Ok regions /\
      get_region_names T "Region" true = Ok (map fst parts) /\
      StronglySorted (le_of value_ltb) (map fst parts) /\
      (forall k, k ∈ map fst parts -> k ∈ regions /\ notna k = true) /\
      (forall v, v ∈ regions -> notna v = true ->
                 exists k, k ∈ map fst parts /\ value_eqb k v = true) /\
      (forall s, VStr s ∈ map fst parts <-> VStr s ∈ regions) /\
      (forall k t, (k, t) ∈ parts ->
         rows t = map (delete "Region")
                    (stable_sort (rows_leb ["Year"; "Month"])
                                 (rows_of_region T "Region" k))) /\
      (forall k t row, (k, t) ∈ parts -> row ∈ rows t ->
         exists r, r ∈ rows T /\ notna (cell "Region" r) = true /\
                   row = delete "Region" r).
Proof.
  intros T parts H.
  destruct (split_by_region_entries _ _ _ H) as (regions & Hcol & Hnames & Hkeys & Hparts).
  assert (Hrows : forall k t, (k, t) ∈ parts ->
            rows t = map (delete "Region")
                       (stable_sort (rows_leb ["Year"; "Month"])
                                    (rows_of_region T "Region" k))).
  { intros k t Hin. rewrite Forall_forall in Hparts.
    apply (split_one_rows T "Region" k t). exact (Hparts _ Hin). }
  exists regions. rewrite Hkeys in *.
  split; [exact Hcol|]. split; [exact Hnames|]. split; [apply group_keys_strict|].
  split; [apply group_keys_present|]. split; [apply group_keys_cover|].
  split; [|split; [exact Hrows|]].
  - intros s. split; [now intros ?%group_keys_present|].
    intros Hs. destruct (group_keys_cover regions (VStr s) Hs eq_refl) as (k & Hk & E).
    now apply value_eqb_str_inv in E as ->.
  - intros k t row Hin Hrow. rewrite (Hrows _ _ Hin) in Hrow.
    apply list_elem_of_fmap in Hrow as (r & -> & Hr).
    rewrite <- (stable_sort_perm (rows_leb ["Year"; "Month"])) in Hr.
    unfold rows_of_region in Hr. apply list_elem_of_filter in Hr as [E Hr].
    exists r. split; [exact Hr|]. split; [|reflexivity].
    apply (value_eqb_notna _ k E).
    apply (list_elem_of_fmap_2 fst) in Hin. simpl in Hin.
    change (fst <$> parts) with (map fst parts) in Hin. rewrite Hkeys in Hin.
    now apply group_keys_present in Hin.
Qed.

Lemma C9_partition_keys_are_present_regions_witness :
  exists parts regions,
    split_by_region table_with_missing_region "Region" true = Ok parts /\
    map fst parts = [VStr "US"] /\
    getitem table_with_missing_region "Region" = Ok regions /\
    get_region_names table_with_missing_region "Region" true = Ok (map fst parts) /\
    StronglySorted (le_of value_ltb) (map fst parts) /\
    (forall k, k ∈ map fst parts -> k ∈ regions /\ notna k = true) /\
    (forall v, v ∈ regions -> notna v = true ->
               exists k, k ∈ map fst parts /\ value_eqb k v = true) /\
    (forall s, VStr s ∈ map fst parts <-> VStr s ∈ regions) /\
    (forall k t, (k, t) ∈ parts ->
       rows t = map (delete "Region")
                  (stable_sort (rows_leb ["Year"; "Month"])
                               (rows_of_region table_with_missing_region "Region" k))) /\
    (forall k t row, (k, t) ∈ parts -> row ∈ rows t ->
       exists r, r ∈ rows table_with_missing_region /\
                 notna (cell "Region" r) = true /\ row = delete "Region" r).
Proof.
  destruct (C9_partition_keys_are_present_regions table_with_missing_region _
              ltac:(vm_compute; reflexivity)) as (regions & Hc & Hrest).
  eexists _, regions. split; [vm_compute; reflexivity|].
  split; [vm_compute; reflexivity|]. split; [exact Hc|exact Hrest].
Defined.

(** C3 as amended. The row counts of the tables of the partition add up
    to the number of rows of the table whose Region is present; they
    add up to the number of rows of the table when no Region is
    missing. *)
Theorem C3_partition_counts_rows_with_region :
  forall (T : DataFrame) (parts : list (value * DataFrame)),
    split_by_region T "Region" true = Ok parts ->
    total_rows parts =
      length (filter (fun r => notna (cell "Region" r) = true) (rows T)) /\
    (Forall (fun r => notna (cell "Region" r) = true) (rows T) ->
     total_rows parts = length (rows T)).
Proof.
  intros T parts H.
  destruct (split_by_region_entries _ _ _ H) as (regions & Hcol & _ & Hkeys & Hparts).
  assert (Hregions : regions = map (cell "Region") (rows T)).
  { unfold getitem in Hcol. destruct (has_column T "Region"); now inversion Hcol. }
  assert (Hsum : total_rows parts =
            sum_list_with (fun k => length (rows_of_region T "Region" k)) (map fst parts)).
  { unfold total_rows. clear -Hparts.
    induction Hparts as [|[k t] ps Hp _ IH]; simpl; [reflexivity|].
    rewrite IH. f_equal. simpl in Hp. apply split_one_rows in Hp.
    now rewrite Hp, length_map, stable_sort_length. }
  assert (Hcount : total_rows parts =
            length (filter (fun r => notna (cell "Region" r) = true) (rows T))).
  { rewrite Hsum, Hkeys, Hregions. apply count_by_region. }
  split; [exact Hcount|].
  intros Hall. rewrite Hcount. f_equal.
  clear -Hall. induction Hall as [|r rs Hr _ IH]; [reflexivity|].
  rewrite filter_cons. destruct (decide _); [now rewrite IH|contradiction].
Qed.

Lemma C3_partition_counts_rows_with_region_witness :
  exists parts,
    split_by_region scenario_table "Region" true = Ok parts /\
    total_rows parts =
      length (filter (fun r => notna (cell "Region" r) = true) (rows scenario_table)) /\
    (Forall (fun r => notna (cell "Region" r) = true) (rows scenario_table) ->
     total_rows parts = length (rows scenario_table)).
Proof.
  eexists. split; [vm_compute; reflexivity|].
  apply (C3_partition_counts_rows_with_region scenario_table).
  vm_compute; reflexivity.
Defined.

(** C3 as stated fails: a table of two rows, one of them without
    Region, is split into tables holding one row in all. *)
Lemma C3_rows_without_region_are_lost :
  exists parts,
    split_by_region table_with_missing_region "Region" true = Ok parts /\
    total_rows parts = 1%nat /\
    length (rows table_with_missing_region) = 2%nat.
Proof.
  eexists. split; [vm_compute; reflexivity|]. split; reflexivity.
Qed.

(** ** Shares of a row *)









(** ** The model-share analysis *)

Lemma model_share_run T dc :
  returned (call (fun df => plot_model_share_ts df dc) T) =
    (let? pivot := model_share_pivot T dc in
     let? totals := sum_axis1 pivot in
     div_axis0 pivot totals).
Proof.
  unfold call, returned, plot_model_share_ts, model_share_pivot, Heap.bind, lift.
  destruct (prepare_ts_run [T] 0%nat T dc eq_refl) as (r & h' & Hrun & Hres & _).
  rewrite Hrun. destruct (prepare_ts_table T dc) as [d|e]; cbn [rbind].
  - destruct Hres as (l' & -> & Hl'). rewrite (load_run _ _ _ Hl').
    destruct (groupby2_sum_unstack_fillna _ _ _ _ _) as [pivot|e]; cbn [rbind fst]; [|reflexivity].
    destruct (sum_axis1 pivot) as [totals|e]; cbn [rbind fst]; reflexivity.
  - now subst r.
Qed.





(** ** Dates written and read back *)




Lemma split_digits_only a :
  Str.all Str.isdigit a = true -> Str.split "-" a = [a].
Proof.
  induction a as [|c a IH]; simpl; intros H; [reflexivity|].
  apply andb_true_iff in H as [Hc Ha].
  destruct (Ascii.eqb_spec c "-") as [->|_]; [discriminate|].
  now rewrite (IH Ha).
Qed.















(** ** The date column, row by row *)







Lemma add_date_column_returned T yc mc dc :
  returned (call_df (fun df => add_date_column df yc mc dc) T) =
    add_date_column_table T yc mc dc.
Proof.
  unfold call_df, returned, Heap.bind.
  rewrite (add_date_column_run [T] 0%nat T yc mc dc eq_refl).
  destruct (add_date_column_table T yc mc dc) as [d'|e]; [|reflexivity].
  now rewrite (load_run _ _ _ (lookup_alloc [T] d')).
Qed.




(** * Further properties *)

(** ** The exporter on every mapping *)



(** ** Sanitized region names *)

Lemma str_map_map f g s : Str.map f (Str.map g s) = Str.map (fun c => f (g c)) s.
Proof. induction s as [|c s IH]; simpl; [reflexivity|]. now rewrite IH. Qed.

Lemma str_map_ext f g s : (forall c, f c = g c) -> Str.map f s = Str.map g s.
Proof. intros H. induction s as [|c s IH]; simpl; [reflexivity|]. now rewrite H, IH. Qed.

Lemma sanitize_map s : sanitize s = Str.map sanitize_char (Str.strip s).
Proof.
  unfold sanitize, Str.replace, Str.lower. rewrite !str_map_map. reflexivity.
Qed.

Lemma sanitize_char_ok c : file_name_char (sanitize_char c) = true.
Proof. destruct c as [[] [] [] [] [] [] [] []]; reflexivity. Qed.

Lemma sanitize_char_idem c : sanitize_char (sanitize_char c) = sanitize_char c.
Proof. destruct c as [[] [] [] [] [] [] [] []]; reflexivity. Qed.

Lemma sanitize_char_space c :
  Str.isspace c = false -> Str.isspace (sanitize_char c) = false.
Proof. destruct c as [[] [] [] [] [] [] [] []]; intros H; try reflexivity; discriminate. Qed.

Lemma all_map p f s :
  (forall c, p (f c) = true) -> Str.all p (Str.map f s) = true.
Proof. intros H. induction s as [|c s IH]; simpl; [reflexivity|]. now rewrite H, IH. Qed.

(** X2. A sanitized region name holds no blank, no slash and no
    upper-case letter, whatever the region name is. *)
Theorem X2_sanitized_name_characters :
  forall region : string, Str.all file_name_char (sanitize region) = true.
Proof.
  intros s. rewrite sanitize_map. apply all_map, sanitize_char_ok.
Qed.

Lemma lstrip_starts_clean s : starts_clean (Str.lstrip s) = true.
Proof.
  induction s as [|c s IH]; simpl; [reflexivity|].
  destruct (Str.isspace c) eqn:E; [exact IH|]. simpl. now rewrite E.
Qed.

Lemma rstrip_starts_clean s : starts_clean s = true -> starts_clean (Str.rstrip s) = true.
Proof.
  destruct s as [|c s]; simpl; [reflexivity|]. intros H.
  destruct (Str.rstrip s); [|exact H].
  apply negb_true_iff in H. rewrite H. simpl. now rewrite H.
Qed.

Lemma rstrip_ends_clean s : ends_clean (Str.rstrip s) = true.
Proof.
  induction s as [|c s IH]; simpl; [reflexivity|].
  destruct (Str.rstrip s) as [|d r] eqn:E.
  - destruct (Str.isspace c) eqn:Ec; simpl; [reflexivity|now rewrite Ec].
  - exact IH.
Qed.

Lemma lstrip_clean s : starts_clean s = true -> Str.lstrip s = s.
Proof.
  destruct s as [|c s]; simpl; [reflexivity|].
  intros H. apply negb_true_iff in H. now rewrite H.
Qed.

Lemma rstrip_clean s : ends_clean s = true -> Str.rstrip s = s.
Proof.
  induction s as [|c s IH]; [reflexivity|].
  intros H. cbn [Str.rstrip]. destruct s as [|d s'].
  - simpl in *. apply negb_true_iff in H. now rewrite H.
  - rewrite IH by exact H. reflexivity.
Qed.

Lemma map_starts_clean s :
  starts_clean s = true -> starts_clean (Str.map sanitize_char s) = true.
Proof.
  destruct s as [|c s]; simpl; [reflexivity|]. intros H.
  apply negb_true_iff in H. now rewrite sanitize_char_space.
Qed.

Lemma map_ends_clean s :
  ends_clean s = true -> ends_clean (Str.map sanitize_char s) = true.
Proof.
  induction s as [|c s IH]; [reflexivity|]. destruct s as [|d s'].
  - simpl. intros H. apply negb_true_iff in H. now rewrite sanitize_char_space.
  - intros H. exact (IH H).
Qed.

(** X3. Sanitizing a sanitized region name changes nothing. *)
Theorem X3_sanitize_idempotent :
  forall region : string, sanitize (sanitize region) = sanitize region.
Proof.
  intros s. rewrite !sanitize_map.
  set (t := Str.strip s).
  assert (Hs : starts_clean t = true) by apply rstrip_starts_clean, lstrip_starts_clean.
  assert (He : ends_clean t = true) by apply rstrip_ends_clean.
  unfold Str.strip at 1.
  rewrite (lstrip_clean _ (map_starts_clean _ Hs)).
  rewrite (rstrip_clean _ (map_ends_clean _ He)).
  rewrite str_map_map. apply str_map_ext, sanitize_char_idem.
Qed.

(** ** Region names do not depend on the order of the rows *)

Lemma value_ltb_asym a b : value_ltb a b = true -> value_ltb b a = true -> False.
Proof.
  unfold value_ltb. rewrite !negb_true_iff. intros H1 H2.
  apply value_leb_total in H1. congruence.
Qed.

Lemma value_ltb_irrefl a : value_ltb a a = false.
Proof. unfold value_ltb. now rewrite value_leb_refl. Qed.

(** Two strictly ascending lists with the same members are equal. *)
Lemma strictly_sorted_unique (l1 l2 : list value) :
  StronglySorted (le_of value_ltb) l1 ->
  StronglySorted (le_of value_ltb) l2 ->
  (forall x, x ∈ l1 <-> x ∈ l2) ->
  l1 = l2.
Proof.
  intros H1. revert l2. induction H1 as [|a l1 Hs1 IH Ha]; intros l2 H2 Hmem.
  - destruct l2 as [|b l2]; [reflexivity|].
    exfalso. apply (not_elem_of_nil b), Hmem. left.
  - destruct H2 as [|b l2 Hs2 Hb].
    { exfalso. apply (not_elem_of_nil a), Hmem. left. }
    rewrite Forall_forall in Ha, Hb.
    assert (Hab : a = b).
    { assert (Ha2 : a ∈ b :: l2) by (apply Hmem; left).
      assert (Hb1 : b ∈ a :: l1) by (apply Hmem; left).
      apply elem_of_cons in Ha2 as [?|Ha2]; [assumption|].
      apply elem_of_cons in Hb1 as [?|Hb1]; [now symmetry|].
      exfalso. exact (value_ltb_asym a b (Ha _ Hb1) (Hb _ Ha2)). }
    subst b. f_equal. apply IH; [exact Hs2|].
    intros x. split; intros Hx.
    + assert (Hx2 : x ∈ a :: l2) by (apply Hmem; now right).
      apply elem_of_cons in Hx2 as [->|?]; [|assumption].
      exfalso. specialize (Ha _ Hx). unfold le_of in Ha.
      rewrite value_ltb_irrefl in Ha. discriminate.
    + assert (Hx1 : x ∈ a :: l1) by (apply Hmem; now right).
      apply elem_of_cons in Hx1 as [->|?]; [|assumption].
      exfalso. specialize (Hb _ Hx). unfold le_of in Hb.
      rewrite value_ltb_irrefl in Hb. discriminate.
Qed.

Lemma group_keys_text col k :
  Forall text_or_null col ->
  k ∈ group_keys col <-> k ∈ col /\ notna k = true.
Proof.
  intros Hcol. split; [apply group_keys_present|].
  intros [Hk Hn]. destruct (group_keys_cover col k Hk Hn) as (k' & Hk' & E).
  rewrite Forall_forall in Hcol. specialize (Hcol _ Hk).
  destruct k; try contradiction; try discriminate.
  now apply value_eqb_str_inv in E as ->.
Qed.

Lemma comparable_text l :
  Forall text_or_null l -> comparable l = true.
Proof.
  intros H. unfold comparable.
  assert (Hk : Forall (fun v => kind v = 1) (filter (fun v => notna v = true) l)).
  { induction H as [|v l Hv _ IH]; [constructor|].
    rewrite filter_cons. destruct (decide (notna v = true)) as [Hn|Hn]; [|exact IH].
    constructor; [|exact IH]. destruct v; simpl in *; try contradiction; try discriminate.
    reflexivity. }
  revert Hk. destruct (filter _ l) as [|v m]; intros Hk; [reflexivity|].
  inversion Hk as [|? ? Hv Hm]; subst.
  apply forallb_forall. intros w Hw.
  rewrite Forall_forall in Hm. rewrite (Hm w), Hv; [reflexivity|].
  now apply list_elem_of_In.
Qed.

Lemma get_region_names_text T c :
  Forall text_or_null (map (cell c) (rows T)) ->
  get_region_names T c true =
    (let? col := getitem T c in Ok (group_keys col)).
Proof.
  intros Htext. unfold get_region_names, getitem.
  destruct (has_column T c); cbn [rbind]; [|reflexivity].
  unfold sorted. rewrite comparable_text; [reflexivity|].
  apply Forall_forall. intros v Hv%unique_subset.
  unfold dropna in Hv. apply list_elem_of_filter in Hv as [_ Hv].
  rewrite Forall_forall in Htext. now apply Htext.
Qed.

(** X4. For a region column of text, the sorted region names depend
    only on which rows the table holds, not on their order. *)
Theorem X4_region_names_independent_of_row_order :
  forall (T T' : DataFrame) (region_col : string),
    columns T' = columns T ->
    Permutation (rows T) (rows T') ->
    Forall (fun r => text_or_null (cell region_col r)) (rows T) ->
    get_region_names T' region_col true = get_region_names T region_col true.
Proof.
  intros T T' c Hcols Hperm Htext.
  assert (Hcol : Forall text_or_null (map (cell c) (rows T))) by now apply Forall_map.
  assert (Hp : Permutation (map (cell c) (rows T)) (map (cell c) (rows T')))
    by now apply Permutation_map.
  assert (Hcol' : Forall text_or_null (map (cell c) (rows T')))
    by (eapply Permutation_Forall; eassumption).
  rewrite !get_region_names_text by assumption.
  unfold getitem, has_column. rewrite Hcols.
  destruct (bool_decide (c ∈ columns T)); cbn [rbind]; [|reflexivity].
  f_equal. apply strictly_sorted_unique; try apply group_keys_strict.
  intros k. rewrite !group_keys_text by assumption. now rewrite Hp.
Qed.

Lemma X4_region_names_independent_of_row_order_witness :
  get_region_names scenario_table_reordered "Region" true = Ok [VStr "EU"; VStr "US"] /\
  get_region_names scenario_table_reordered "Region" true =
    get_region_names scenario_table "Region" true.
Proof.
  split; [vm_compute; reflexivity|].
  apply (X4_region_names_independent_of_row_order scenario_table scenario_table_reordered).
  - reflexivity.
  - unfold scenario_table, scenario_table_reordered. cbn [rows].
    apply Permutation_rev.
  - repeat (constructor; [vm_compute; exact I|]). constructor.
Defined.

(** ** The tables of the partition *)

Lemma rows_leb_delete by_ c r1 r2 :
  c ∉ by_ -> rows_leb by_ (delete c r1) (delete c r2) = rows_leb by_ r1 r2.
Proof.
  induction by_ as [|k ks IH]; simpl; intros Hc; [reflexivity|].
  assert (Hk : k <> c) by (intros ->; apply Hc; left).
  assert (Hks : c ∉ ks) by (intros H; apply Hc; now right).
  unfold cell. rewrite !lookup_delete_ne by (intros ->; now apply Hk).
  now rewrite IH.
Qed.

Lemma Sorted_map_rows by_ c rs :
  c ∉ by_ ->
  Sorted (le_of (rows_leb by_)) rs ->
  Sorted (le_of (rows_leb by_)) (map (delete c) rs).
Proof.
  intros Hc. induction 1 as [|r rs Hs IH Hhd]; simpl; constructor; [exact IH|].
  destruct Hhd as [|r' rs' Hr]; simpl; constructor.
  unfold le_of in *. now rewrite rows_leb_delete.
Qed.

Lemma split_one_table T c b k t :
  split_one T c b k = Ok t ->
  columns t = (if b then filter (fun c' => c' <> c) (columns T) else columns T) /\
  rows t = (if b then map (delete c) else id)
             (stable_sort (rows_leb ["Year"; "Month"]) (rows_of_region T c k)).
Proof.
  unfold split_one, getitem, has_column.
  destruct (bool_decide (c ∈ columns T)) eqn:Hc; cbn [rbind]; [|discriminate].
  unfold getitem_mask, sort_values. cbn [columns rows].
  rewrite map_map.
  rewrite (mask_rows_filter (fun r => value_eqb (cell c r) k)).
  destruct (rmap _ _) as [keys|e]; cbn [rbind]; [|discriminate].
  destruct (forallb comparable keys); [|discriminate].
  destruct b.
  - unfold drop, has_column. cbn [rbind columns rows]. rewrite Hc.
    intros H. injection H as <-. split; reflexivity.
  - cbn [rbind]. intros H. injection H as <-. split; reflexivity.
Qed.

Lemma split_by_region_tables T c b parts :
  split_by_region T c b = Ok parts ->
  Forall (fun p => split_one T c b (fst p) = Ok (snd p)) parts.
Proof.
  unfold split_by_region.
  destruct (get_region_names T c true) as [names|e] eqn:Hn; cbn [rbind]; [|discriminate].
  intros H. unfold get_region_names in Hn.
  destruct (getitem T c) as [regions|e]; cbn [rbind] in Hn; [|discriminate].
  apply sorted_ok in Hn.
  apply split_loop_entries in H.
  2:{ simpl. subst names.
      eapply ForallOrdPairs_perm; [|apply stable_sort_perm|apply unique_pairwise].
      intros x y. now rewrite value_eqb_sym. }
  destruct H as (new & -> & Hnew). simpl.
  clear -Hnew. induction Hnew as [|k p ks ps [Hk Hp] _ IH]; constructor; [|exact IH].
  now rewrite Hk.
Qed.

(** X5. Every table [split_by_region] returns is ordered by year, then
    month; it has the columns of the source table in their order,
    without the region column when that is dropped; and the region cell
    of each of its rows equals the key of the table when the column is
    kept. *)
Theorem X5_partition_tables_sorted_by_year_month :
  forall (T : DataFrame) (drop_region_col : bool) (parts : list (value * DataFrame)),
    split_by_region T "Region" drop_region_col = Ok parts ->
    forall k t, (k, t) ∈ parts ->
      Sorted (le_of (rows_leb ["Year"; "Month"])) (rows t) /\
      columns t = (if drop_region_col
                   then filter (fun c => c <> "Region") (columns T)
                   else columns T) /\
      (drop_region_col = false ->
       Forall (fun r => value_eqb (cell "Region" r) k = true) (rows t)).
Proof.
  intros T b parts H k t Hin.
  apply split_by_region_tables in H. rewrite Forall_forall in H.
  specialize (H _ Hin). simpl in H. apply split_one_table in H as [Hcols Hrows].
  assert (Hs : Sorted (le_of (rows_leb ["Year"; "Month"]))
                 (stable_sort (rows_leb ["Year"; "Month"]) (rows_of_region T "Region" k)))
    by apply stable_sort_sorted, rows_leb_total.
  split; [|split; [exact Hcols|]].
  - rewrite Hrows. destruct b; [|exact Hs].
    apply Sorted_map_rows; [|exact Hs].
    intros Hc. repeat (apply elem_of_cons in Hc as [Hc|Hc]; [discriminate|]).
    now apply elem_of_nil in Hc.
  - intros ->. rewrite Hrows. simpl.
    eapply Permutation_Forall; [apply stable_sort_perm|].
    unfold rows_of_region. apply Forall_forall. now intros r [Hr _]%list_elem_of_filter.
Qed.

Lemma X5_partition_tables_sorted_by_year_month_witness :
  exists parts t,
    split_by_region scenario_table_reordered "Region" true = Ok parts /\
    (VStr "US", t) ∈ parts /\
    map (cell "Month") (rows t) = [VInt 1; VInt 2] /\
    Sorted (le_of (rows_leb ["Year"; "Month"])) (rows t) /\
    columns t = filter (fun c => c <> "Region") (columns scenario_table_reordered) /\
    (true = false -> Forall (fun r => value_eqb (cell "Region" r) (VStr "US") = true) (rows t)).
Proof.
  eexists _, _. split; [vm_compute; reflexivity|].
  assert (Hin : forall (x y : value * DataFrame), y ∈ [x; y]) by (intros; right; left).
  split; [apply Hin|]. split; [vm_compute; reflexivity|].
  eapply (X5_partition_tables_sorted_by_year_month scenario_table_reordered true).
  - vm_compute. reflexivity.
  - apply Hin.
Defined.

(** ** What the date functions keep *)

Lemma to_datetime_text_dates (texts : list string) dates :
  to_datetime (str_series texts) = Ok dates ->
  Forall (fun d => exists t, d = VDate t) dates.
Proof.
  intros H. apply rmap_Forall2 in H. unfold str_series in H.
  remember (map VStr texts) as l eqn:El. revert texts El.
  induction H as [|v d l ds Hd _ IH]; intros texts El; [constructor|].
  destruct texts as [|s texts]; [discriminate|]. injection El as -> ->.
  constructor; [|now apply (IH texts)].
  simpl in Hd. destruct (parse_datetime s) as [t|]; [|discriminate].
  inversion Hd. now exists t.
Qed.

Lemma setitem_table T c s out :
  setitem T c s = Ok out ->
  columns out = (if has_column T c then columns T else columns T ++ [c]) /\
  Forall2 (fun r r' => exists v, v ∈ s /\ r' = <[c:=v]> r) (rows T) (rows out).
Proof.
  unfold setitem. destruct (length s =? length (rows T))%nat eqn:E; simpl; [|discriminate].
  intros H. injection H as <-. simpl. split; [reflexivity|].
  apply Nat.eqb_eq in E. revert s E.
  induction (rows T) as [|r rs IH]; intros [|v s] E; simpl in *; try discriminate; constructor.
  - exists v. split; [left|reflexivity].
  - eapply Forall2_impl; [apply IH; lia|].
    intros x y (w & Hw & ->). exists w. split; [now right|reflexivity].
Qed.

(** X6. The table [add_date_column] returns has the rows of the table
    passed in, in their order, each with a timestamp in the date column
    and every other cell as it was; the date column is added as the
    last column when the table had none. *)
Theorem X6_add_date_column_keeps_rows :
  forall (T : DataFrame) (year_col month_col date_col : string) (out : DataFrame),
    returned (call_df (fun df => add_date_column df year_col month_col date_col) T) = Ok out ->
    columns out = (if has_column T date_col then columns T else columns T ++ [date_col]) /\
    Forall2 (fun r r' => exists t, r' = <[date_col := VDate t]> r) (rows T) (rows out) /\
    length (rows out) = length (rows T) /\
    (forall c, c <> date_col -> map (cell c) (rows out) = map (cell c) (rows T)).
Proof.
  intros T yc mc dc out. rewrite add_date_column_returned.
  unfold add_date_column_table.
  destruct (getitem T yc) as [years|e]; cbn [rbind]; [|discriminate].
  destruct (astype_int years) as [ys|e]; cbn [rbind]; [|discriminate].
  destruct (getitem T mc) as [months|e]; cbn [rbind]; [|discriminate].
  destruct (astype_int months) as [ms|e]; cbn [rbind]; [|discriminate].
  destruct (to_datetime _) as [dates|e] eqn:Hd; cbn [rbind]; [|discriminate].
  apply to_datetime_text_dates in Hd.
  intros H. apply setitem_table in H as [Hcols Hrows].
  assert (Hrows' : Forall2 (fun r r' => exists t, r' = <[dc := VDate t]> r)
                     (rows T) (rows out)).
  { eapply Forall2_impl; [exact Hrows|]. intros r r' (v & Hv & ->).
    rewrite Forall_forall in Hd. destruct (Hd _ Hv) as [t ->]. now exists t. }
  split; [exact Hcols|]. split; [exact Hrows'|]. split.
  - symmetry. eapply Forall2_length. exact Hrows'.
  - intros c Hc. clear -Hrows' Hc.
    induction Hrows' as [|r r' rs rs' [t ->] _ IH]; simpl; [reflexivity|].
    rewrite IH. f_equal. unfold cell. now rewrite lookup_insert_ne.
Qed.

Lemma X6_add_date_column_keeps_rows_witness :
  exists out,
    returned (call_df (fun df => add_date_column df "Year" "Month" "Date") scenario_table)
      = Ok out /\
    columns out = (if has_column scenario_table "Date" then columns scenario_table
                   else columns scenario_table ++ ["Date"]) /\
    Forall2 (fun r r' => exists t, r' = <["Date" := VDate t]> r)
            (rows scenario_table) (rows out) /\
    length (rows out) = length (rows scenario_table) /\
    (forall c, c <> "Date" -> map (cell c) (rows out) = map (cell c) (rows scenario_table)).
Proof.
  eexists. split; [vm_compute; reflexivity|].
  apply (X6_add_date_column_keeps_rows scenario_table "Year" "Month" "Date").
  vm_compute. reflexivity.
Defined.

(** X7. [add_date_column] never changes the table of its caller,
    whether it returns or raises; [_prepare_ts_df] does not change it
    either when the table has no date column. *)
Theorem X7_date_functions_work_on_a_copy :
  forall (T : DataFrame) (year_col month_col date_col : string),
    callers_table (call_df (fun df => add_date_column df year_col month_col date_col) T)
      = Some T /\
    (has_column T date_col = false ->
     callers_table (call_df (fun df => _prepare_ts_df df date_col) T) = Some T).
Proof.
  intros T yc mc dc. split.
  - apply add_date_column_keeps_callers_table.
  - apply prepare_ts_df_keeps_callers_table_without_date.
Qed.

Lemma X7_date_functions_work_on_a_copy_witness :
  callers_table (call_df (fun df => add_date_column df "Year" "Month" "Date") scenario_table)
    = Some scenario_table /\
  callers_table (call_df (fun df => _prepare_ts_df df "Date") scenario_table)
    = Some scenario_table.
Proof.
  destruct (X7_date_functions_work_on_a_copy scenario_table "Year" "Month" "Date") as [H1 H2].
  split; [exact H1|]. apply H2. reflexivity.
Defined.

(** ** The prepared table is in date order *)

Lemma rows_leb_one c r1 r2 :
  rows_leb [c] r1 r2 = value_leb (cell c r1) (cell c r2).
Proof.
  simpl. unfold value_ltb.
  destruct (value_leb (cell c r2) (cell c r1)) eqn:E1; simpl.
  - destruct (value_leb (cell c r1) (cell c r2)); reflexivity.
  - symmetry. now apply value_leb_total.
Qed.

Lemma sorted_column c rs :
  Sorted (le_of (rows_leb [c])) rs ->
  StronglySorted (le_of value_leb) (map (cell c) rs).
Proof.
  intros H. apply Sorted_StronglySorted; [intros x y z; apply value_leb_trans|].
  induction H as [|r rs Hs IH Hhd]; simpl; constructor; [exact IH|].
  destruct Hhd as [|r' rs' Hr]; simpl; constructor.
  unfold le_of in *. now rewrite rows_leb_one in Hr.
Qed.

(** A sorted date column: the timestamps ascending, then the missing
    dates. *)
Lemma sorted_dates_shape col :
  Forall datelike col ->
  StronglySorted (le_of value_leb) col ->
  exists (ts : list Z) (n : nat),
    col = map VDate ts ++ replicate n VNull /\ Sorted Z.le ts.
Proof.
  intros Hd Hs. induction Hs as [|v col Hs IH Hv]; [now exists [], 0%nat|].
  inversion Hd as [|? ? Hdv Hdcol]; subst.
  destruct (IH Hdcol) as (ts & n & -> & Hts).
  destruct v as [| | | |t]; try contradiction.
  - (* a missing date first: only missing dates follow *)
    destruct ts as [|t ts].
    + now exists [], (S n).
    + exfalso. inversion Hv as [|? ? Hle _]; subst. discriminate.
  - exists (t :: ts), n. split; [reflexivity|]. constructor; [exact Hts|].
    destruct ts as [|t' ts]; constructor.
    inversion Hv as [|? ? Hle _]; subst. unfold le_of in Hle. cbn in Hle.
    now apply Z.leb_le.
Qed.

(** X8. The table [_prepare_ts_df] returns has as many rows as the table
    passed in, and its date column runs through the timestamps in
    ascending order, the rows without a date last. *)
Theorem X8_prepared_table_in_date_order :
  forall (T : DataFrame) (date_col : string) (out : DataFrame),
    returned (call_df (fun df => _prepare_ts_df df date_col) T) = Ok out ->
    length (rows out) = length (rows T) /\
    exists (ts : list Z) (n : nat),
      getitem out date_col = Ok (map VDate ts ++ replicate n VNull) /\
      Sorted Z.le ts.
Proof.
  intros T dc out. rewrite prepare_ts_returned. intros H.
  destruct (prepared_dates _ _ _ H) as (dates & col & Hsrc & Hcol & Hp & Hd).
  revert H. unfold prepare_ts_table.
  destruct (if has_column T dc then Ok T else add_date_column_table T "Year" "Month" dc)
    as [d1|e] eqn:Hd1; cbn [rbind]; [|discriminate].
  destruct (getitem d1 dc) as [col1|e]; cbn [rbind]; [|discriminate].
  destruct (to_datetime col1) as [dates1|e]; cbn [rbind]; [|discriminate].
  destruct (setitem d1 dc dates1) as [d2|e] eqn:Hset; cbn [rbind]; [|discriminate].
  rewrite sort_values_one.
  destruct (getitem d2 dc) as [col2|e]; cbn [rbind]; [|discriminate].
  destruct (comparable col2); [|discriminate].
  intros H. apply (f_equal (fun r => match r with Ok x => x | Raise _ => d2 end)) in H.
  subst out. cbn [rows] in *. split.
  - rewrite stable_sort_length.
    apply setitem_table in Hset as [_ Hrows]. apply Forall2_length in Hrows.
    rewrite <- Hrows. destruct (has_column T dc).
    + now injection Hd1 as ->.
    + unfold add_date_column_table in Hd1.
      destruct (getitem T "Year"); cbn [rbind] in Hd1; [|discriminate].
      destruct (astype_int _); cbn [rbind] in Hd1; [|discriminate].
      destruct (getitem T "Month"); cbn [rbind] in Hd1; [|discriminate].
      destruct (astype_int _); cbn [rbind] in Hd1; [|discriminate].
      destruct (to_datetime _); cbn [rbind] in Hd1; [|discriminate].
      apply setitem_table in Hd1 as [_ Hr1]. now apply Forall2_length in Hr1.
  - assert (Hc : col = map (cell dc) (stable_sort (rows_leb [dc]) (rows d2))).
    { unfold getitem in Hcol. destruct (has_column _ dc); [|discriminate].
      apply (f_equal (fun r => match r with Ok x => x | Raise _ => [] end)) in Hcol.
      now subst col. }
    destruct (sorted_dates_shape _ Hd) as (ts & n & Hshape & Hts).
    { rewrite Hc. apply sorted_column, stable_sort_sorted, rows_leb_total. }
    exists ts, n. split; [|exact Hts]. now rewrite Hcol, Hshape.
Qed.

Lemma X8_prepared_table_in_date_order_witness :
  exists out,
    returned (call_df (fun df => _prepare_ts_df df "Date") text_dates_table) = Ok out /\
    map (cell "Date") (rows out) =
      [VDate (Timestamp 2023 1 1); VDate (Timestamp 2023 2 1); VNull] /\
    length (rows out) = length (rows text_dates_table) /\
    exists (ts : list Z) (n : nat),
      getitem out "Date" = Ok (map VDate ts ++ replicate n VNull) /\
      Sorted Z.le ts.
Proof.
  eexists. split; [vm_compute; reflexivity|]. split; [vm_compute; reflexivity|].
  apply (X8_prepared_table_in_date_order text_dates_table "Date").
  vm_compute. reflexivity.
Defined.

Lemma Sorted_impl_rel {A} (R R' : A -> A -> Prop) l :
  (forall a b, R a b -> R' a b) -> Sorted R l -> Sorted R' l.
Proof.
  intros H. induction 1 as [|a l Hs IH Hhd]; constructor; [exact IH|].
  destruct Hhd; constructor; auto.
Qed.

(** ** Counting values *)

Lemma length_filter_map {A B} (f : A -> B) (p : B -> bool) l :
  length (filter (fun w => p w = true) (map f l)) =
  length (filter (fun x => p (f x) = true) l).
Proof.
  induction l as [|a l IH]; [reflexivity|]. simpl map.
  rewrite !filter_cons. destruct (p (f a)); simpl.
  - destruct (decide (true = true)); [|congruence]. simpl. now rewrite IH.
  - destruct (decide (false = true)); [congruence|]. exact IH.
Qed.

(** The counts before they are put in order. *)
Lemma raw_counts_of_column df c :
  counts_of_column df c
    (map (fun v => (v, length (filter (fun w => value_eqb w v = true)
                                      (map (cell c) (rows df)))))
         (unique (dropna (map (cell c) (rows df))))).
Proof.
  set (col := map (cell c) (rows df)).
  assert (Hcnt : forall v, length (filter (fun w => value_eqb w v = true) col) =
                           length (rows_of_region df c v)).
  { intros v. unfold col, rows_of_region.
    apply (length_filter_map (cell c) (fun w => value_eqb w v)). }
  split; [|split].
  - pose proof (unique_pairwise (dropna col)) as H.
    induction H as [|a l Ha _ IH]; simpl; constructor; [|exact IH].
    apply Forall_map. exact Ha.
  - apply Forall_map, Forall_forall. intros v Hv%unique_subset. simpl.
    unfold dropna in Hv. apply list_elem_of_filter in Hv as [Hn Hv].
    split; [exact Hn|]. split; [|apply Hcnt].
    apply list_elem_of_split in Hv as (l1 & l2 & ->).
    rewrite filter_app, filter_cons, decide_True by apply value_eqb_refl.
    rewrite length_app. simpl. lia.
  - unfold present_count.
    rewrite <- (count_by_region c (rows df)). fold col. unfold group_keys.
    rewrite <- (stable_sort_perm value_leb (unique (dropna col))).
    induction (unique (dropna col)) as [|v l IH]; [reflexivity|].
    simpl. rewrite IH, Hcnt. reflexivity.
Qed.

Lemma counts_of_column_perm df c l l' :
  Permutation l l' -> counts_of_column df c l -> counts_of_column df c l'.
Proof.
  intros Hp (Hd & Hf & Hs). split; [|split].
  - eapply ForallOrdPairs_perm; [|exact Hp|exact Hd].
    intros a b. now rewrite value_eqb_sym.
  - eapply Permutation_Forall; eassumption.
  - now rewrite <- Hp.
Qed.

Lemma value_counts_of_column df c :
  counts_of_column df c (value_counts (map (cell c) (rows df))) /\
  Sorted (fun a b => (snd b <= snd a)%nat) (value_counts (map (cell c) (rows df))).
Proof.
  split.
  - eapply counts_of_column_perm; [apply stable_sort_perm|apply raw_counts_of_column].
  - unfold value_counts.
    pose proof (stable_sort_sorted (fun a b : value * nat => (snd b <=? snd a)%nat)) as H.
    eapply Sorted_impl_rel; [|apply H].
    + intros a b Hab. now apply Nat.leb_le.
    + intros a b Hab. apply Nat.leb_le. apply Nat.leb_gt in Hab. lia.
Qed.

(** X9. [count_categorical] treats each requested column on its own, in
    the order asked.  For a column the table lacks it prints the warning
    and nothing else.  For a column the table has it prints the header,
    the counts and a blank line, where the counts list every distinct
    present value once, each with the number of rows holding it (at
    least one), most frequent first, and add up to the number of rows
    whose cell is present. *)
Theorem X9_count_categorical_counts df cols :
  count_categorical df cols =
    concat (map (fun col => count_categorical df [col]) cols) /\
  forall col,
    (has_column df col = false ->
     count_categorical df [col] = [warn_missing_column col]) /\
    (has_column df col = true ->
     exists counts,
       count_categorical df [col] = value_counts_block col counts /\
       counts_of_column df col counts /\
       Sorted (fun a b => (snd b <= snd a)%nat) counts).
Proof.
  split.
  - unfold count_categorical. rewrite flat_map_concat_map. f_equal.
    apply map_ext. intros col. simpl. now rewrite app_nil_r.
  - intros col. unfold count_categorical. simpl. rewrite app_nil_r. split; intros H; rewrite H; simpl.
    + reflexivity.
    + eexists. split; [reflexivity|]. apply value_counts_of_column.
Qed.

Lemma X9_count_categorical_counts_witness :
  exists counts,
    count_categorical scenario_table ["Region"] = value_counts_block "Region" counts /\
    counts_of_column scenario_table "Region" counts /\
    Sorted (fun a b => (snd b <= snd a)%nat) counts.
Proof.
  apply (proj2 (X9_count_categorical_counts scenario_table ["Region"]) "Region").
  reflexivity.
Defined.

(** ** Comparable columns *)

Lemma comparable_iff s :
  comparable s = true <->
  (forall a b, a ∈ s -> b ∈ s -> notna a = true -> notna b = true -> kind a = kind b).
Proof.
  unfold comparable.
  assert (Hin : forall x, x ∈ filter (fun v => notna v = true) s <-> notna x = true /\ x ∈ s).
  { intros x. now rewrite list_elem_of_filter. }
  destruct (filter (fun v => notna v = true) s) as [|v l].
  - split; [|reflexivity]. intros _ a b Ha _ Hna _.
    exfalso. eapply elem_of_nil. apply Hin. eauto.
  - rewrite forallb_forall. split.
    + intros H a b Ha Hb Hna Hnb.
      assert (Hk : forall x, x ∈ s -> notna x = true -> kind x = kind v).
      { intros x Hx Hnx. pose proof (proj2 (Hin x) (conj Hnx Hx)) as Hxl.
        apply elem_of_cons in Hxl as [->|Hxl]; [reflexivity|].
        apply Z.eqb_eq, H. now apply list_elem_of_In. }
      now rewrite (Hk a), (Hk b).
    + intros H w Hw. apply Z.eqb_eq.
      destruct (proj1 (Hin v)) as [Hnv Hv]; [left|].
      destruct (proj1 (Hin w)) as [Hnw Hws]; [right; now apply list_elem_of_In|].
      now apply H.
Qed.

Lemma value_eqb_kind a b : value_eqb a b = true -> kind a = kind b.
Proof.
  unfold value_eqb, value_leb. intros H.
  destruct (kind a <? kind b)%Z eqn:E1, (kind b <? kind a)%Z eqn:E2; simpl in H;
    try discriminate; lia.
Qed.

(** Whether a column can be ordered depends on the kinds of its present
    values only. *)
Lemma comparable_transfer l l' :
  (forall x, x ∈ l' -> notna x = true ->
             exists y, y ∈ l /\ notna y = true /\ kind y = kind x) ->
  comparable l = true -> comparable l' = true.
Proof.
  rewrite !comparable_iff. intros H Hl a b Ha Hb Hna Hnb.
  destruct (H a Ha Hna) as (a' & Ha' & Hna' & <-).
  destruct (H b Hb Hnb) as (b' & Hb' & Hnb' & <-).
  now apply Hl.
Qed.

Lemma comparable_perm l l' : Permutation l l' -> comparable l = comparable l'.
Proof.
  intros Hp.
  destruct (comparable l) eqn:E, (comparable l') eqn:E'; try reflexivity.
  - rewrite <- E'. symmetry. eapply comparable_transfer; [|exact E].
    intros x Hx Hn. exists x. rewrite Hp. auto.
  - rewrite <- E. eapply comparable_transfer; [|exact E'].
    intros x Hx Hn. exists x. rewrite <- Hp. auto.
Qed.

Lemma value_counts_labels s :
  Permutation (map fst (value_counts s)) (unique (dropna s)).
Proof.
  unfold value_counts. rewrite <- stable_sort_perm, map_map. simpl.
  now rewrite map_id.
Qed.

Lemma comparable_value_counts s :
  comparable (map fst (value_counts s)) = comparable s.
Proof.
  rewrite (comparable_perm _ _ (value_counts_labels s)).
  destruct (comparable s) eqn:E.
  - eapply comparable_transfer; [|exact E].
    intros x Hx%unique_subset Hn. exists x. unfold dropna in Hx.
    apply list_elem_of_filter in Hx. tauto.
  - destruct (comparable (unique (dropna s))) eqn:E'; [|reflexivity].
    rewrite <- E. symmetry. eapply comparable_transfer; [|exact E'].
    intros x Hx Hn.
    destruct (unique_cover (dropna s) x) as (y & Hy & Hyx).
    { apply list_elem_of_filter. auto. }
    exists y. split; [exact Hy|]. split; [|now apply value_eqb_kind].
    eapply value_eqb_notna; eassumption.
Qed.

(** A list in ascending order of its labels, with no label twice, is in
    strictly ascending order. *)
Lemma sorted_distinct_strict (l : list (value * nat)) :
  Sorted (le_of (fun a b => value_leb (fst a) (fst b))) l ->
  ForallOrdPairs (fun a b => value_eqb (fst a) (fst b) = false) l ->
  StronglySorted (fun a b => value_ltb (fst a) (fst b) = true) l.
Proof.
  intros Hs Hd.
  apply Sorted_StronglySorted in Hs;
    [|intros a b c; unfold le_of; apply value_leb_trans].
  induction Hs as [|a m Hm IH Ha]; [constructor|].
  inversion Hd as [|? ? Hda Hdm]; subst. constructor; [now apply IH|].
  rewrite Forall_forall in *. intros x Hx. specialize (Ha x Hx). specialize (Hda x Hx).
  unfold le_of, value_ltb, value_eqb in *. rewrite Ha in Hda. simpl in Hda.
  now rewrite Hda.
Qed.

(** X10. The series a chart of [plot_year_month_dist] is drawn from,
    for a column the table has.  When the present values of the column
    cannot be ordered (text beside numbers) a TypeError is raised.
    Otherwise the series has one bar for each distinct present value, in
    strictly ascending order of the values, each bar as high as the
    number of rows holding the value, and the heights add up to the
    number of rows whose cell is present. *)
Theorem X10_distribution_series_ascending df col :
  has_column df col = true ->
  (comparable (map (cell col) (rows df)) = false ->
   distribution_series df col = Raise TypeError) /\
  (comparable (map (cell col) (rows df)) = true ->
   exists bars,
     distribution_series df col = Ok bars /\
     StronglySorted (fun a b => value_ltb (fst a) (fst b) = true) bars /\
     counts_of_column df col bars).
Proof.
  intros Hc. unfold distribution_series. rewrite (getitem_has _ _ Hc). cbn [rbind].
  unfold sort_index. rewrite comparable_value_counts.
  split; intros ->; [reflexivity|].
  eexists. split; [reflexivity|].
  assert (Hcnt : counts_of_column df col
            (stable_sort (fun a b => value_leb (fst a) (fst b))
               (value_counts (map (cell col) (rows df))))).
  { eapply counts_of_column_perm; [apply stable_sort_perm|apply value_counts_of_column]. }
  split; [|exact Hcnt].
  apply sorted_distinct_strict; [|apply Hcnt].
  apply stable_sort_sorted. intros a b. apply value_leb_total.
Qed.

Lemma X10_distribution_series_ascending_witness :
  exists bars,
    distribution_series scenario_table "Month" = Ok bars /\
    StronglySorted (fun a b => value_ltb (fst a) (fst b) = true) bars /\
    counts_of_column scenario_table "Month" bars.
Proof.
  apply (X10_distribution_series_ascending scenario_table "Month"); reflexivity.
Defined.

(** ** Missing values *)

Lemma filter_map_comm {A B} (f : A -> B) (P : B -> Prop) `{!forall x, Decision (P x)} l :
  filter P (map f l) = map f (filter (fun x => P (f x)) l).
Proof.
  induction l as [|a l IH]; [reflexivity|]. simpl map.
  rewrite !filter_cons. destruct (decide (P (f a))); simpl; now rewrite IH.
Qed.

Lemma isna_sum_counts df :
  isna_sum df = map (fun c => (c, missing_count df c)) (columns df).
Proof.
  unfold isna_sum, missing_count. apply map_ext. intros c. f_equal.
  apply (length_filter_map (cell c) isna).
Qed.

(** X11. [plot_missing_values] prints that nothing is missing exactly
    when no column of the table has a missing cell.  Otherwise it shows
    one chart whose bars are the columns with at least one missing cell,
    each with its number of missing cells, the smallest number first. *)
Theorem X11_missing_values_chart df :
  (plot_missing_values df = [Print ">> No Missing Values Found."] <->
   forall c, c ∈ columns df -> missing_count df c = 0%nat) /\
  ((exists c, c ∈ columns df /\ (0 < missing_count df c)%nat) ->
   exists bars,
     plot_missing_values df = [BarhChart "Missing Values per Column" "Count" bars] /\
     Sorted (fun a b => (snd a <= snd b)%nat) bars /\
     Permutation bars
       (map (fun c => (c, missing_count df c))
            (filter (fun c => (0 < missing_count df c)%nat) (columns df)))).
Proof.
  unfold plot_missing_values. cbv zeta. rewrite isna_sum_counts.
  rewrite (filter_map_comm (fun c => (c, missing_count df c))
             (fun p : string * nat => (0 < snd p)%nat)).
  cbn [snd].
  set (cs := filter (fun c => (0 < missing_count df c)%nat) (columns df)).
  assert (Hcs : forall c, c ∈ cs <-> (0 < missing_count df c)%nat /\ c ∈ columns df).
  { intros c. unfold cs. now rewrite list_elem_of_filter. }
  destruct cs as [|c0 cs'] eqn:E; cbn [map].
  - split.
    + split; [|reflexivity]. intros _ c Hc.
      destruct (missing_count df c) eqn:Hm; [reflexivity|].
      exfalso. eapply elem_of_nil. apply Hcs. split; [|exact Hc]. rewrite Hm. lia.
    + intros (c & Hc & Hm). exfalso. eapply elem_of_nil. apply Hcs. eauto.
  - split.
    + split; [discriminate|]. intros H.
      destruct (proj1 (Hcs c0)) as [Hm Hc]; [left|].
      rewrite (H c0 Hc) in Hm. lia.
    + intros _. eexists. split; [reflexivity|]. split.
      * eapply Sorted_impl_rel;
          [|apply (stable_sort_sorted (fun a b : string * nat => (snd a <=? snd b)%nat))].
        -- intros a b Hab. now apply Nat.leb_le.
        -- intros a b Hab. apply Nat.leb_le. apply Nat.leb_gt in Hab. lia.
      * symmetry. apply stable_sort_perm.
Qed.

Lemma X11_missing_values_chart_witness :
  exists bars,
    plot_missing_values table_with_missing_region =
      [BarhChart "Missing Values per Column" "Count" bars] /\
    Sorted (fun a b => (snd a <= snd b)%nat) bars /\
    Permutation bars
      (map (fun c => (c, missing_count table_with_missing_region c))
           (filter (fun c => (0 < missing_count table_with_missing_region c)%nat)
                   (columns table_with_missing_region))).
Proof.
  apply (proj2 (X11_missing_values_chart table_with_missing_region)).
  exists "Region". split; [|vm_compute; lia].
  unfold table_with_missing_region, sales_columns. simpl. repeat constructor.
Defined.

(** ** Loading *)

Lemma rmap_getitem df cols :
  rmap (getitem df) cols =
    if forallb (has_column df) cols
    then Ok (map (fun c => map (cell c) (rows df)) cols)
    else Raise KeyError.
Proof.
  induction cols as [|c cols IH]; [reflexivity|]. cbn [rmap forallb map].
  unfold getitem at 1. destruct (has_column df c); cbn [rbind andb]; [|reflexivity].
  rewrite IH. now destruct (forallb (has_column df) cols).
Qed.

Lemma forallb_map_comp {A B} (f : A -> B) (p : B -> bool) l :
  forallb p (map f l) = forallb (fun x => p (f x)) l.
Proof. induction l as [|a l IH]; simpl; [reflexivity|]. now rewrite IH. Qed.

Lemma sort_values_ok df by_ :
  forallb (has_column df) by_ = true ->
  forallb (fun c => comparable (map (cell c) (rows df))) by_ = true ->
  sort_values df by_ = Ok (mkDF (columns df) (stable_sort (rows_leb by_) (rows df))).
Proof.
  intros Hc Hk. unfold sort_values. rewrite rmap_getitem, Hc. cbn [rbind].
  now rewrite forallb_map_comp, Hk.
Qed.

Lemma sort_values_missing df by_ :
  forallb (has_column df) by_ = false -> sort_values df by_ = Raise KeyError.
Proof. intros Hc. unfold sort_values. now rewrite rmap_getitem, Hc. Qed.

(** X12. [load_tesla_data] with sorting, when the file read has the four
    key columns and each of them can be ordered: the table returned has
    the columns of the file and the same rows, rearranged into ascending
    order of year, then month, then region, then model; sorting it again
    by these columns changes nothing.  When one of the four columns is
    missing from the file a KeyError is raised, while loading without
    sorting returns the file as read. *)
Theorem X12_load_tesla_data_sorted read_csv path df :
  read_csv path = Ok df ->
  (forallb (has_column df) ["Year"; "Month"; "Region"; "Model"] = true ->
   forallb (fun c => comparable (map (cell c) (rows df)))
           ["Year"; "Month"; "Region"; "Model"] = true ->
   exists out,
     load_tesla_data read_csv path true = Ok out /\
     columns out = columns df /\
     Permutation (rows df) (rows out) /\
     Sorted (le_of (rows_leb ["Year"; "Month"; "Region"; "Model"])) (rows out) /\
     sort_values out ["Year"; "Month"; "Region"; "Model"] = Ok out) /\
  (forallb (has_column df) ["Year"; "Month"; "Region"; "Model"] = false ->
   load_tesla_data read_csv path true = Raise KeyError) /\
  load_tesla_data read_csv path false = Ok df.
Proof.
  intros Hr. unfold load_tesla_data. rewrite Hr. cbn [rbind].
  set (keys := ["Year"; "Month"; "Region"; "Model"]).
  split; [|split; [apply sort_values_missing|reflexivity]].
  intros Hc Hk. rewrite (sort_values_ok _ _ Hc Hk).
  eexists. split; [reflexivity|]. cbn [columns rows].
  split; [reflexivity|]. split; [apply stable_sort_perm|].
  split; [apply stable_sort_sorted, rows_leb_total|].
  rewrite sort_values_ok; cbn [columns rows].
  - now rewrite (stable_sort_idem _ (rows_leb_total keys)).
  - exact Hc.
  - rewrite <- Hk.
    pose proof (stable_sort_perm (rows_leb keys) (rows df)) as Hp. revert Hp.
    generalize (stable_sort (rows_leb keys) (rows df)). intros rs Hp.
    clear -Hp. induction keys as [|c cs IH]; [reflexivity|].
    cbn [forallb]. rewrite IH. f_equal. apply comparable_perm.
    now apply Permutation_map.
Qed.

Lemma X12_load_tesla_data_sorted_witness :
  (exists out,
     load_tesla_data (fun _ => Ok full_table) "tesla.csv" true = Ok out /\
     columns out = columns full_table /\
     Permutation (rows full_table) (rows out) /\
     Sorted (le_of (rows_leb ["Year"; "Month"; "Region"; "Model"])) (rows out) /\
     sort_values out ["Year"; "Month"; "Region"; "Model"] = Ok out).
Proof.
  apply (X12_load_tesla_data_sorted (fun _ => Ok full_table) "tesla.csv" full_table);
    reflexivity.
Defined.

(** ** The share table *)

Lemma rmap_rows_length {A B C} (f : A -> B -> result C) (ks : list A) (l : A -> list B) b :
  rmap (fun k => rmap (f k) (l k)) ks = Ok b ->
  Forall2 (fun k r => length r = length (l k)) ks b.
Proof.
  intros H%rmap_Forall2. induction H as [|k r ks b Hr _ IH]; constructor; [|exact IH].
  now apply rmap_length in Hr.
Qed.

(** The pivot table of dates against models is rectangular, with the
    dates and the models that occur together in a row as its labels. *)
Lemma pivot_shape d key1 key2 col x pivot :
  groupby2_sum_unstack_fillna d key1 key2 col x = Ok pivot ->
  let kept := filter (fun r => notna (cell key1 r) && notna (cell key2 r) = true) (rows d) in
  index pivot = group_keys (map (cell key1) kept) /\
  col_labels pivot = group_keys (map (cell key2) kept) /\
  length (body pivot) = length (index pivot) /\
  Forall (fun r => length r = length (col_labels pivot)) (body pivot).
Proof.
  intros H kept. unfold groupby2_sum_unstack_fillna in H. fold kept in H.
  destruct (getitem d key1); cbn [rbind] in H; [|discriminate].
  destruct (getitem d key2); cbn [rbind] in H; [|discriminate].
  destruct (getitem d col); cbn [rbind] in H; [|discriminate].
  destruct (rmap _ (group_keys (map (cell key1) kept))) as [b|e] eqn:Hb;
    cbn [rbind] in H; [|discriminate].
  apply (f_equal (fun r => match r with Ok f => f | Raise _ => pivot end)) in H.
  subst pivot. cbn [index col_labels body].
  split; [reflexivity|]. split; [reflexivity|].
  split; [now apply rmap_length in Hb|].
  apply (rmap_rows_length _ _ (fun _ => group_keys (map (cell key2) kept))) in Hb.
  induction Hb; constructor; auto.
Qed.

Lemma div_axis0_shape f s out :
  div_axis0 f s = Ok out ->
  index out = index f /\ col_labels out = col_labels f /\
  length (body out) = length (body f) /\
  (forall n, Forall (fun r => length r = n) (body f) ->
             Forall (fun r => length r = n) (body out)).
Proof.
  unfold div_axis0. destruct (length s =? length (body f))%nat eqn:E; [|discriminate].
  apply Nat.eqb_eq in E. cbn [negb].
  destruct (rmap _ (zip (body f) s)) as [b|e] eqn:Hb; cbn [rbind]; [|discriminate].
  intros H. apply (f_equal (fun r => match r with Ok f => f | Raise _ => out end)) in H.
  subst out. cbn [index col_labels body].
  split; [reflexivity|]. split; [reflexivity|]. split.
  - apply rmap_length in Hb. rewrite Hb, length_zip_with. lia.
  - intros n Hn. apply rmap_Forall2 in Hb.
    assert (Hz : Forall (fun rt : list value * value => length (fst rt) = n) (zip (body f) s)).
    { clear -Hn. revert s. induction Hn as [|r rs Hr _ IH]; intros [|t s]; simpl;
        constructor; auto. }
    clear -Hb Hz. induction Hb as [|rt r l b Hr _ IH]; [constructor|].
    inversion Hz; subst. constructor; [|now apply IH].
    now apply rmap_length in Hr.
Qed.

(** X13. The share table of [plot_model_share_ts] is rectangular: one
    row for every date of its index and, in every row, one cell for
    every model of its column labels.  The index holds timestamps in
    strictly ascending order, namely the dates of the rows of the
    prepared table that have both a date and a model, and the model
    labels are in strictly ascending order. *)
Theorem X13_share_table_shape :
  forall (T : DataFrame) (date_col : string) (share : Frame),
    returned (call (fun df => plot_model_share_ts df date_col) T) = Ok share ->
    (exists ts, index share = map VDate ts /\ StronglySorted Z.lt ts) /\
    StronglySorted (le_of value_ltb) (col_labels share) /\
    length (body share) = length (index share) /\
    Forall (fun r => length r = length (col_labels share)) (body share) /\
    exists d,
      returned (call_df (fun df => _prepare_ts_df df date_col) T) = Ok d /\
      forall t, VDate t ∈ index share <->
                exists r, r ∈ rows d /\ cell date_col r = VDate t /\
                          notna (cell "Model" r) = true.
Proof.
  intros T dc share H. rewrite model_share_run in H. unfold model_share_pivot in H.
  rewrite prepare_ts_returned.
  destruct (prepare_ts_table T dc) as [d|e] eqn:Hd; cbn [rbind] in H; [|discriminate].
  destruct (groupby2_sum_unstack_fillna d dc "Model" "Estimated_Deliveries" (VNum 0))
    as [pivot|e] eqn:Hp; cbn [rbind] in H; [|discriminate].
  destruct (sum_axis1 pivot) as [totals|e]; cbn [rbind] in H; [|discriminate].
  apply div_axis0_shape in H as (Hi & Hc & Hl & Hrows).
  apply pivot_shape in Hp as (Hpi & Hpc & Hpl & Hprows). cbv zeta in Hpi, Hpc.
  set (kept := filter (fun r => notna (cell dc r) && notna (cell "Model" r) = true) (rows d))
    in *.
  rewrite Hi, Hc, Hl.
  destruct (prepared_dates _ _ _ Hd) as (dates & col & _ & Hcol & _ & Hdl).
  assert (Hcol' : col = map (cell dc) (rows d)).
  { unfold getitem in Hcol. destruct (has_column d dc); [|discriminate].
    now apply (f_equal (fun r => match r with Ok c => c | Raise _ => col end)) in Hcol. }
  assert (Hkd : Forall (fun v => datelike v /\ notna v = true) (index pivot)).
  { rewrite Hpi. apply Forall_forall. intros k [Hk Hn]%group_keys_present.
    split; [|exact Hn]. rewrite Forall_forall in Hdl. apply Hdl. rewrite Hcol'.
    apply list_elem_of_fmap in Hk as (r & -> & Hr).
    apply list_elem_of_fmap. exists r. split; [reflexivity|].
    unfold kept in Hr. apply list_elem_of_filter in Hr. tauto. }
  destruct (timestamps_of _ Hkd) as (ts & Hts).
  split; [|split; [|split; [|split]]].
  - exists ts. split; [exact Hts|]. apply strict_dates. rewrite <- Hts, Hpi.
    apply group_keys_strict.
  - rewrite Hpc. apply group_keys_strict.
  - exact Hpl.
  - now apply Hrows.
  - exists d. split; [reflexivity|]. intros t. rewrite Hpi. split.
    + intros [Hk _]%group_keys_present.
      apply list_elem_of_fmap in Hk as (r & Hr & Hin). exists r.
      unfold kept in Hin. apply list_elem_of_filter in Hin as [Hn Hin].
      apply andb_true_iff in Hn. split; [exact Hin|]. split; [now symmetry|tauto].
    + intros (r & Hr & Hc' & Hm).
      destruct (group_keys_cover (map (cell dc) kept) (VDate t)) as (k & Hk & Hkt).
      * apply list_elem_of_fmap. exists r. split; [now symmetry|].
        unfold kept. apply list_elem_of_filter. split; [|exact Hr].
        now rewrite Hc', Hm.
      * reflexivity.
      * assert (Hkk : k = VDate t); [|now subst].
        rewrite <- Hpi, Hts in Hk. apply list_elem_of_fmap in Hk as (t' & -> & _).
        rewrite value_eqb_date in Hkt. apply Z.eqb_eq in Hkt. now subst.
Qed.

Lemma X13_share_table_shape_witness :
  exists share,
    returned (call (fun df => plot_model_share_ts df "Date") thirty_seventy_table) = Ok share /\
    length (body share) = length (index share).
Proof.
  eexists. split; [vm_compute; reflexivity|].
  eapply (X13_share_table_shape thirty_seventy_table "Date"). vm_compute. reflexivity.
Defined.

(** ** Shares between zero and one *)















(** ** Monthly totals add up *)


Section GroupTotals.
Context (key col : string).

Local Abbreviation rows_eq k rs :=
  (filter (fun r : gmap string value => value_eqb (cell key r) k = true) rs).
Local Abbreviation rows_in ks rs :=
  (filter (fun r : gmap string value => existsb (value_eqb (cell key r)) ks = true) rs).








End GroupTotals.

Lemma nums_VNum qs : nums (map VNum qs) = qs.
Proof. induction qs as [|q qs IH]; simpl; [reflexivity|]. now rewrite IH. Qed.






